(** * Customer-record cleansing, merge and incremental ingestion

    A shallow embedding of [merge_practice1.py] and [append_batch.py].

    Both scripts normalise customer tables with the same field-level
    functions ([normalize_str], [normalize_phone], [normalize_date]), clean
    a table column by column ([clean]), concatenate the cleaned tables,
    sort them by [customer_id] ascending and [points] descending, and keep
    the first row of every [(customer_id, email)] key.  [append_batch.py]
    adds a ledger file of already ingested source names.

    Python strings are sequences of Unicode code points, so a string is a
    list of code points here.  What the scripts take from [unicodedata],
    [re] and [pandas] (the NFKC table, the digit class of the regex engine,
    numeric and date coercion) is gathered in the interface [Runtime]; the
    functions of the scripts are written over that interface, and
    [reference_runtime] is an instance that tabulates the part of those
    libraries needed to run the functions on concrete inputs. *)

From Stdlib Require Import ZArith NArith List Bool Lia Permutation.
From Stdlib Require Import Ascii String.
From stdpp Require Import gmap.
Import ListNotations.

Local Open Scope Z_scope.

(** ** Strings *)

Definition char := N.
Definition str := list char.

(** An ASCII literal as a Python string. *)
Definition py (s : string) : str :=
  List.map N_of_ascii (list_ascii_of_string s).

(** [str.isspace] on one character: the characters [str.strip()] removes
    when it is called without argument. *)
Definition isspace (c : char) : bool :=
  ((9 <=? c) && (c <=? 13) || (28 <=? c) && (c <=? 32)
   || (c =? 133) || (c =? 160) || (c =? 5760)
   || (8192 <=? c) && (c <=? 8202)
   || (c =? 8232) || (c =? 8233) || (c =? 8239) || (c =? 8287)
   || (c =? 12288))%N.

Fixpoint lstrip (s : str) : str :=
  match s with
  | [] => []
  | c :: s' => if isspace c then lstrip s' else s
  end.

Definition rstrip (s : str) : str := rev (lstrip (rev s)).

(** [s.strip()] *)
Definition strip (s : str) : str := rstrip (lstrip s).

(** ** Exceptions *)

Inductive exn :=
  | TypeError          (* astype("Int64") on a value that is not an int64 *)
  | OSError            (* a file that cannot be opened or read *)
  | UnicodeDecodeError (* a file that is not UTF-8 *).

Inductive result (A : Type) :=
  | OK (a : A)
  | Raise (e : exn).
Arguments OK {A} a.
Arguments Raise {A} e.

Definition bind {A B} (r : result A) (k : A -> result B) : result B :=
  match r with
  | OK a => k a
  | Raise e => Raise e
  end.

Notation "'let!' x ':=' r 'in' k" := (bind r (fun x => k))
  (at level 10, x name, r at level 100, k at level 200).

Fixpoint mapM {A B} (f : A -> result B) (l : list A) : result (list B) :=
  match l with
  | [] => OK []
  | a :: l' => let! b := f a in let! bs := mapM f l' in OK (b :: bs)
  end.

(** ** What the scripts use of their libraries *)

(** One cell of the Series [pd.to_numeric(..., errors="coerce")] returns. *)
Inductive numeric :=
  | num_nan                (* NaN: missing, or not parseable as a number *)
  | num_int (z : Z)        (* a number whose value is the integer z *)
  | num_nonint.            (* a number that is no integer: 1.5, inf *)

Class Runtime := {
  (** [unicodedata.normalize("NFKC", s)] *)
  nfkc : str -> str;
  (** the class [\d] of [re] on a [str] pattern (Unicode decimal digits) *)
  re_digit : char -> bool;
  (** [pd.to_numeric(column, errors="coerce")] on a column of text cells,
      a missing cell being [None] *)
  to_numeric : list (option str) -> list numeric;
  (** [pd.Timestamp] *)
  Timestamp : Type;
  (** [pd.to_datetime(d, errors="coerce")], [None] being [NaT] *)
  to_datetime : option str -> option Timestamp;
  (** [ts.strftime("%Y-%m-%d")] *)
  strftime_ymd : Timestamp -> str
}.

(** [pd.to_numeric] returns a Series over the index of its argument, and a
    missing cell stays missing. *)
Class RuntimeLaws (R : Runtime) : Prop := {
  to_numeric_length : forall col, length (to_numeric col) = length col;
  to_numeric_missing : forall col i,
    nth_error col i = Some None -> nth_error (to_numeric col) i = Some num_nan
}.

(** ** 0. Field-level normalisers *)

Section Normalizer.
Context {R : Runtime}.

(** [normalize_str]: a missing value ([pd.isna]) stays missing; otherwise
    strip, then NFKC, and the empty string becomes [None]. *)
Definition normalize_str (s : option str) : option str :=
  match s with
  | None => None
  | Some s =>
      let s := strip s in
      let s := nfkc s in
      match s with [] => None | _ => Some s end
  end.

(** [re.sub(r"\D", "", phone)] *)
Definition sub_non_digits (phone : str) : str := List.filter re_digit phone.

(** [normalize_phone] *)
Definition normalize_phone (phone : option str) : option str :=
  match phone with
  | None => None
  | Some phone =>
      let digits := sub_non_digits phone in
      if (length digits =? 10)%nat || (length digits =? 11)%nat
      then Some digits
      else None
  end.

(** [normalize_date] of [append_batch.py]; in [merge_practice1.py] the
    same two calls are made on the whole column. *)
Definition normalize_date (d : option str) : option str :=
  match to_datetime d with
  | Some ts => Some (strftime_ymd ts)
  | None => None
  end.
End Normalizer.

(** ** 3. Tables and [clean] *)

(** A row as [pd.read_csv(..., dtype=str)] delivers it, after the columns
    have been renamed to the canonical names: every cell is text or
    missing. *)
Record RawRow := {
  raw_customer_id : option str;
  raw_name : option str;
  raw_email : option str;
  raw_phone : option str;
  raw_address : option str;
  raw_join_date : option str;
  raw_points : option str
}.

(** A raw table.  [has_points] tells whether the table has a [points]
    column at all; without one the [raw_points] cells mean nothing. *)
Record RawFrame := {
  has_points : bool;
  raw_rows : list RawRow
}.

(** A row of a cleaned table.  [customer_id] and [points] are cells of the
    nullable integer type [Int64], the other cells are text or missing. *)
Record Row := {
  customer_id : option Z;
  name : option str;
  email : option str;
  phone : option str;
  address : option str;
  join_date : option str;
  points : option Z
}.

(** The rows of a table given by its seven columns. *)
Definition data_frame (customer_id : list (option Z))
    (name email phone address join_date : list (option str))
    (points : list (option Z)) : list Row :=
  List.map
    (fun '(c, (n, (e, (ph, (a, (j, p)))))) => Build_Row c n e ph a j p)
    (combine customer_id (combine name (combine email (combine phone
       (combine address (combine join_date points)))))).

(** [.fillna(0)] *)
Definition fillna0 (col : list numeric) : list numeric :=
  List.map (fun v => match v with num_nan => num_int 0 | _ => v end) col.

(** One cell of [.astype("Int64")]: NaN becomes [<NA>], an integer that
    fits 64 bits is kept, anything else cannot be cast safely. *)
Definition Int64_of (v : numeric) : result (option Z) :=
  match v with
  | num_nan => OK None
  | num_int z =>
      if (- 2 ^ 63 <=? z) && (z <? 2 ^ 63) then OK (Some z)
      else Raise TypeError
  | num_nonint => Raise TypeError
  end.

(** [.astype("Int64")] *)
Definition astype_Int64 (col : list numeric) : result (list (option Z)) :=
  mapM Int64_of col.

(** The [points] column [clean] works on:
    [if "points" not in df.columns: df["points"] = None]. *)
Definition points_column (df : RawFrame) : list (option str) :=
  if has_points df then List.map raw_points (raw_rows df)
  else List.map (fun _ => None) (raw_rows df).

Section Clean.
Context {R : Runtime}.

(** [clean] of [append_batch.py].  The one of [merge_practice1.py] runs
    the same column assignments; there the missing [points] column of
    source A is added by the caller before [clean] is called. *)
Definition clean (df : RawFrame) : result (list Row) :=
  let rows := raw_rows df in
  (* if "points" not in df.columns: df["points"] = None *)
  let points := points_column df in
  (* for col in [...]: df[col] = df[col].apply(normalize_str) *)
  let customer_id := List.map normalize_str (List.map raw_customer_id rows) in
  let name := List.map normalize_str (List.map raw_name rows) in
  let email := List.map normalize_str (List.map raw_email rows) in
  let phone := List.map normalize_str (List.map raw_phone rows) in
  let address := List.map normalize_str (List.map raw_address rows) in
  (* pd.to_numeric(df["customer_id"], errors="coerce").astype("Int64") *)
  let! customer_id := astype_Int64 (to_numeric customer_id) in
  let phone := List.map normalize_phone phone in
  let join_date := List.map normalize_date (List.map raw_join_date rows) in
  (* pd.to_numeric(df["points"], errors="coerce").fillna(0).astype("Int64") *)
  let! points := astype_Int64 (fillna0 (to_numeric points)) in
  OK (data_frame customer_id name email phone address join_date points).
End Clean.

(** ** 4. Merge and duplicate resolution *)

(** The order of [sort_values(["customer_id", "points"],
    ascending=[True, False])].  pandas turns each key column into integer
    codes, a missing value getting the largest code in either direction
    (na_position is "last"), and sorts the code tuples with a stable
    lexicographic sort. *)
Definition cid_before (a b : option Z) : bool :=
  match a, b with
  | Some x, Some y => x <? y
  | Some _, None => true
  | None, _ => false
  end.

Definition points_before (a b : option Z) : bool :=
  match a, b with
  | Some x, Some y => y <? x
  | Some _, None => true
  | None, _ => false
  end.

(** [row_before r1 r2]: the sort keys of [r1] come strictly before those of
    [r2]. *)
Definition row_before (r1 r2 : Row) : bool :=
  cid_before (customer_id r1) (customer_id r2)
  || negb (cid_before (customer_id r2) (customer_id r1))
     && points_before (points r1) (points r2).

(** Stable insertion: [r] goes in front of the first row that does not come
    strictly before it. *)
Fixpoint insert_row (r : Row) (l : list Row) : list Row :=
  match l with
  | [] => [r]
  | y :: l' => if row_before y r then y :: insert_row r l' else r :: l
  end.

Fixpoint sort_values (df : list Row) : list Row :=
  match df with
  | [] => []
  | r :: df' => insert_row r (sort_values df')
  end.

(** The key of [drop_duplicates(subset=["customer_id", "email"])].  Missing
    values compare equal to each other there. *)
Definition dedup_key (r : Row) : option Z * option str :=
  (customer_id r, email r).

Definition same_key (r1 r2 : Row) : bool :=
  bool_decide (dedup_key r1 = dedup_key r2).

(** [drop_duplicates(..., keep="first")]: one forward scan that keeps a row
    when its key has not been seen. *)
Fixpoint drop_duplicates_from (seen : gset (option Z * option str))
    (df : list Row) : list Row :=
  match df with
  | [] => []
  | r :: df' =>
      if bool_decide (dedup_key r ∈ seen) then drop_duplicates_from seen df'
      else r :: drop_duplicates_from ({[dedup_key r]} ∪ seen) df'
  end.

Definition drop_duplicates (df : list Row) : list Row :=
  drop_duplicates_from ∅ df.

(** [pd.concat([a, b], ignore_index=True)] *)
Definition concat2 (a b : list Row) : list Row := a ++ b.

(** [merged]: concat, sort, drop duplicates; [reset_index(drop=True)] only
    renumbers the rows. *)
Definition merged (existing incoming : list Row) : list Row :=
  drop_duplicates (sort_values (concat2 existing incoming)).

(** ** The ledger and [main] of [append_batch.py] *)

(** A path of the file system: nothing there, something that cannot be
    read (no permission, a directory, bytes that are not UTF-8), or a file
    with its decoded content. *)
Inductive file (A : Type) :=
  | Missing
  | Unreadable (e : exn)
  | Contents (a : A).
Arguments Missing {A}.
Arguments Unreadable {A} e.
Arguments Contents {A} a.

(** [path.exists()] *)
Definition file_exists {A : Type} (f : file A) : bool :=
  match f with Missing => false | _ => true end.

(** [path.read_text(encoding="utf-8")] and [pd.read_csv(path, dtype=str)]:
    both raise when the path cannot be read. *)
Definition read_file {A : Type} (f : file A) : result A :=
  match f with
  | Missing => Raise OSError
  | Unreadable e => Raise e
  | Contents a => OK a
  end.

(** The line boundaries of [str.splitlines]. *)
Definition is_linebreak (c : char) : bool :=
  ((10 <=? c) && (c <=? 13) || (28 <=? c) && (c <=? 30)
   || (c =? 133) || (c =? 8232) || (c =? 8233))%N.

(** [splitlines_from cur s]: the lines of [s], [cur] being the characters
    of the current line read so far, last one first. *)
Fixpoint splitlines_from (cur : str) (s : str) : list str :=
  match s with
  | [] => match cur with [] => [] | _ => [rev cur] end
  | c :: s' =>
      if is_linebreak c then
        rev cur ::
        match s' with
        | c' :: s'' =>
            if (c =? 13)%N && (c' =? 10)%N then splitlines_from [] s''
            else splitlines_from [] s'
        | [] => []
        end
      else splitlines_from (c :: cur) s'
  end.

(** [s.splitlines()] *)
Definition splitlines (s : str) : list str := splitlines_from [] s.

(** Step 1 of [main]: the names already ingested.
    [set(x.strip() for x in PROCESSED_LOG.read_text(...).splitlines())]
    when the ledger exists, the empty set otherwise. *)
Definition load_already (log : file str) : result (gset str) :=
  if file_exists log then
    let! txt := read_file log in
    OK (list_to_set (List.map strip (splitlines txt)))
  else OK ∅.

(** Step 2: [[p for p in sorted(ADD_DIR.glob("*.csv")) if p.name not in
    already]].  The listing is the value of the [sorted(...)] call: the
    entries of the directory in path order, each with its name. *)
Fixpoint add_files_of {A : Type} (already : gset str) (listing : list (str * A))
    : list (str * A) :=
  match listing with
  | [] => []
  | p :: listing' =>
      if bool_decide (p.1 ∈ already) then add_files_of already listing'
      else p :: add_files_of already listing'
  end.

(** Step 6: [log.write(p.name + "\n")] for every new file, on the ledger
    opened for appending (which creates it when it is missing). *)
Definition record_processed (log : file str) (names : list str) : file str :=
  let old := match log with Contents txt => txt | _ => [] end in
  Contents (fold_left (fun txt n => txt ++ (n ++ [10%N])) names old).

Record World := {
  PROCESSED_LOG : file str;
  (** [sorted(ADD_DIR.glob("*.csv"))] *)
  ADD_DIR : list (str * file RawFrame);
  MASTER_CSV : file RawFrame;
  OUTPUT_CSV : file (list Row)
}.

Section Main.
Context {R : Runtime}.

Definition read_and_clean (f : file RawFrame) : result (list Row) :=
  let! df := read_file f in clean df.

Definition main (w : World) : result World :=
  let! already := load_already (PROCESSED_LOG w) in
  let add_files := add_files_of already (ADD_DIR w) in
  match add_files with
  | [] => OK w
  | _ :: _ =>
      let! master := read_and_clean (MASTER_CSV w) in
      let! add_dfs := mapM (fun p => read_and_clean p.2) add_files in
      let add_df := List.concat add_dfs in
      let merged := merged master add_df in
      OK {| PROCESSED_LOG :=
              record_processed (PROCESSED_LOG w) (List.map fst add_files);
            ADD_DIR := ADD_DIR w;
            MASTER_CSV := MASTER_CSV w;
            OUTPUT_CSV := Contents merged |}
  end.
End Main.

(** ** What [sort_values] and the list comprehension are to achieve *)

(** Two rows have the same sort keys. *)
Definition keys_tie (r1 r2 : Row) : bool :=
  negb (row_before r1 r2) && negb (row_before r2 r1).

(** No row comes strictly before a row in front of it. *)
Fixpoint rows_sorted (l : list Row) : Prop :=
  match l with
  | [] => True
  | r :: l' => (forall y, In y l' -> row_before y r = false) /\ rows_sorted l'
  end.

(** [l'] is a stable sort of [l]: the same rows, in key order, rows with
    equal keys in the order they have in [l]. *)
Definition stable_sort_of (l l' : list Row) : Prop :=
  Permutation l l' /\ rows_sorted l' /\
  forall r, List.filter (keys_tie r) l' = List.filter (keys_tie r) l.

(** An outcome of the merge when [sort_values] is any stable sort. *)
Definition merge_outcome (existing incoming out : list Row) : Prop :=
  exists sorted,
    stable_sort_of (concat2 existing incoming) sorted /\
    out = drop_duplicates sorted.

(** [points_le a b]: the points [a] are at most the points [b]; missing
    points are below every number. *)
Definition points_le (a b : option Z) : Prop :=
  match a, b with
  | None, _ => True
  | Some x, Some y => x <= y
  | Some _, None => False
  end.

(** A name the ledger gives back as it was written: no space at either
    end and no line boundary inside. *)
Definition plain_name (n : str) : Prop :=
  strip n = n /\ forallb (fun c => negb (is_linebreak c)) n = true.

(** A ledger as [main] leaves it: no file, or text that is empty or ends
    with a newline. *)
Definition ledger_well_formed (log : file str) : Prop :=
  match log with
  | Missing => True
  | Unreadable _ => False
  | Contents txt => txt = [] \/ exists t, txt = t ++ [10%N]
  end.

(** [filter_new] in the words of the specification: the candidates that
    are not in the set, in candidate order. *)
Definition filter_new (already : gset str) (candidates : list str) : list str :=
  List.filter (fun c => negb (bool_decide (c ∈ already))) candidates.

(** The ten ASCII digits. *)
Definition ascii_digit (c : char) : bool := ((48 <=? c) && (c <=? 57))%N.

(** ** A reference instance of the library interface

    The tables below cover a part of what the libraries do, enough to run
    the scripts' functions on the inputs used further down: the NFKC
    foldings of the full-width forms and of a few spacing marks (no
    composition), some blocks of decimal digits, plain decimal numerals of
    a few digits, and dates written [YYYY-MM-DD].  The general theorems do
    not depend on them: they hold for every instance of [Runtime]. *)

Module Reference.

(** The compatibility mapping of one code point. *)
Definition nfkc_char (c : char) : str :=
  (if (c =? 0x3000) || (c =? 0xA0) then [0x20]
   else if (0xFF01 <=? c) && (c <=? 0xFF5E) then [c - 0xFEE0]
   else if c =? 0xA8 then [0x20; 0x308]       (* DIAERESIS *)
   else if c =? 0xB4 then [0x20; 0x301]       (* ACUTE ACCENT *)
   else if c =? 0x309B then [0x20; 0x3099]    (* KATAKANA-HIRAGANA VOICED SOUND MARK *)
   else if c =? 0x309C then [0x20; 0x309A]    (* KATAKANA-HIRAGANA SEMI-VOICED SOUND MARK *)
   else [c])%N.

Definition nfkc (s : str) : str := flat_map nfkc_char s.

(** ASCII, Arabic-Indic, extended Arabic-Indic, Devanagari and full-width
    digits. *)
Definition re_digit (c : char) : bool :=
  ((0x30 <=? c) && (c <=? 0x39) || (0x660 <=? c) && (c <=? 0x669)
   || (0x6F0 <=? c) && (c <=? 0x6F9) || (0x966 <=? c) && (c <=? 0x96F)
   || (0xFF10 <=? c) && (c <=? 0xFF19))%N.

(** The value of a string of ASCII digits read after [acc]. *)
Fixpoint digits_value (acc : Z) (s : str) : Z :=
  match s with
  | [] => acc
  | c :: s' => digits_value (10 * acc + (Z.of_N c - 48)) s'
  end.

(** The leading ASCII digits of [s] and what follows them. *)
Fixpoint span_digits (s : str) : str * str :=
  match s with
  | c :: s' =>
      if ascii_digit c then let '(d, r) := span_digits s' in (c :: d, r)
      else ([], s)
  | [] => ([], [])
  end.

(** A numeral: an optional sign, digits, and optionally a point and more
    digits. *)
Definition parse_numeral (s : str) : numeric :=
  let '(neg, body) :=
    match s with
    | 45%N :: t => (true, t)
    | 43%N :: t => (false, t)
    | _ => (false, s)
    end in
  let '(ip, rest) := span_digits body in
  let v := digits_value 0 ip in
  let v := if neg then - v else v in
  match ip, rest with
  | [], _ => num_nan
  | _, [] => num_int v
  | _, 46%N :: fp =>
      if forallb ascii_digit fp then
        if forallb (N.eqb 48) fp then num_int v else num_nonint
      else num_nan
  | _, _ => num_nan
  end.

Definition to_numeric (col : list (option str)) : list numeric :=
  List.map
    (fun cell => match cell with None => num_nan | Some s => parse_numeral s end)
    col.

(** Year, month, day. *)
Definition Timestamp : Type := Z * Z * Z.

Definition days_in_month (y m : Z) : Z :=
  if m =? 2 then
    if (y mod 4 =? 0) && (negb (y mod 100 =? 0) || (y mod 400 =? 0))
    then 29 else 28
  else if (m =? 4) || (m =? 6) || (m =? 9) || (m =? 11) then 30
  else 31.

Definition to_datetime (d : option str) : option Timestamp :=
  match d with
  | Some [y1; y2; y3; y4; 45%N; m1; m2; 45%N; d1; d2] =>
      if forallb ascii_digit [y1; y2; y3; y4; m1; m2; d1; d2] then
        let y := digits_value 0 [y1; y2; y3; y4] in
        let m := digits_value 0 [m1; m2] in
        let dd := digits_value 0 [d1; d2] in
        if (1678 <=? y) && (y <=? 2261) && (1 <=? m) && (m <=? 12)
           && (1 <=? dd) && (dd <=? days_in_month y m)
        then Some (y, m, dd) else None
      else None
  | _ => None
  end.

Definition digit_char (z : Z) : char := Z.to_N (48 + z mod 10).

Definition strftime_ymd (ts : Timestamp) : str :=
  let '(y, m, d) := ts in
  [digit_char (y / 1000); digit_char (y / 100); digit_char (y / 10);
   digit_char y; 45%N; digit_char (m / 10); digit_char m; 45%N;
   digit_char (d / 10); digit_char d].

End Reference.

Definition reference_runtime : Runtime := {|
  nfkc := Reference.nfkc;
  re_digit := Reference.re_digit;
  to_numeric := Reference.to_numeric;
  Timestamp := Reference.Timestamp;
  to_datetime := Reference.to_datetime;
  strftime_ymd := Reference.strftime_ymd
|}.

(** ** Inputs used in the examples *)

(** A raw row with a customer id, an e-mail address and points only. *)
Definition raw_row (cid email pts : string) : RawRow := {|
  raw_customer_id := Some (py cid);
  raw_name := None;
  raw_email := Some (py email);
  raw_phone := None;
  raw_address := None;
  raw_join_date := None;
  raw_points := Some (py pts)
|}.

(** A cleaned row with a customer id, an e-mail address and points only. *)
Definition row (cid : Z) (n : string) (e : string) (pts : Z) : Row := {|
  customer_id := Some cid;
  name := Some (py n);
  email := Some (py e);
  phone := None;
  address := None;
  join_date := None;
  points := Some pts
|}.

(** Eleven times ARABIC-INDIC DIGIT ZERO. *)
Definition arabic_indic_phone : str := repeat 0x660%N 11.

(** KATAKANA-HIRAGANA VOICED SOUND MARK, a spacing mark of Japanese text,
    and what NFKC makes of it: a space and the combining mark. *)
Definition voiced_sound_mark : str := [0x309B%N].
Definition space_and_combining_mark : str := [0x20%N; 0x3099%N].
Definition combining_mark : str := [0x3099%N].

(** A table with a [points] column. *)
Definition frame (rows : list RawRow) : RawFrame :=
  {| has_points := true; raw_rows := rows |}.

(** A raw row that has a phone number only. *)
Definition raw_phone_row (ph : str) : RawRow := {|
  raw_customer_id := None;
  raw_name := None;
  raw_email := None;
  raw_phone := Some ph;
  raw_address := None;
  raw_join_date := None;
  raw_points := None
|}.

(** A first run (no ledger yet) that finds one new source, whose file name
    starts with a space. *)
Definition spaced_name : str := py " x.csv".

Definition world_with_spaced_name : World := {|
  PROCESSED_LOG := Missing;
  ADD_DIR := [(spaced_name, Contents (frame [raw_row "2" "b@x.com" "7"]))];
  MASTER_CSV := Contents (frame [raw_row "1" "a@x.com" "3"]);
  OUTPUT_CSV := Missing
|}.

(** A run whose ledger exists but is not UTF-8 text. *)
Definition world_with_undecodable_ledger : World := {|
  PROCESSED_LOG := Unreadable UnicodeDecodeError;
  ADD_DIR := [(py "new.csv", Contents (frame [raw_row "2" "b@x.com" "7"]))];
  MASTER_CSV := Contents (frame [raw_row "1" "a@x.com" "3"]);
  OUTPUT_CSV := Missing
|}.

(** ** Notions used to state further properties *)


(** The range of [Int64]. *)
Definition int64_range (z : Z) : Prop := - 2 ^ 63 <= z < 2 ^ 63.

(** What [clean] makes of the text cells of one raw row. *)
Definition text_fields_cleaned {R : Runtime} (raw : RawRow) (r : Row) : Prop :=
  name r = normalize_str (raw_name raw) /\
  email r = normalize_str (raw_email raw) /\
  phone r = normalize_phone (normalize_str (raw_phone raw)) /\
  address r = normalize_str (raw_address raw) /\
  join_date r = normalize_date (raw_join_date raw).

(** The key of a row and the points kept for it. *)
Definition key_and_points (r : Row) : (option Z * option str) * option Z :=
  (dedup_key r, points r).

(** [beaten_by y s]: [y] has the key of [s] and comes strictly before it in
    the sort order (same customer and e-mail address, more points). *)
Definition beaten_by (y s : Row) : bool := same_key s y && row_before y s.

(** No row of [l] beats [s]. *)
Definition unbeaten (l : list Row) (s : Row) : bool :=
  forallb (fun y => negb (beaten_by y s)) l.

(** The names in the ledger, as [load_already] reads them, in the order of
    the file. *)
Definition ledger_lines (log : file str) : list str :=
  match log with
  | Contents txt => List.map strip (splitlines txt)
  | _ => []
  end.

(** A string that does not start with white space. *)
Definition starts_without_space (s : str) : Prop :=
  match s with
  | [] => True
  | c :: _ => isspace c = false
  end.

(** The worlds used as examples of runs. *)
Definition world_first_run : World := {|
  PROCESSED_LOG := Missing;
  ADD_DIR := [(py "b.csv", Contents (frame [raw_row "2" "b@x.com" "7"]));
              (py "c.csv", Contents (frame [raw_row "1" "a@x.com" "9"]))];
  MASTER_CSV := Contents (frame [raw_row "1" "a@x.com" "3"]);
  OUTPUT_CSV := Missing
|}.

(** Every source is in the ledger already, and there is no master table. *)
Definition world_all_processed : World := {|
  PROCESSED_LOG := Contents (py "b.csv" ++ [10%N] ++ py "c.csv" ++ [10%N]);
  ADD_DIR := [(py "b.csv", Contents (frame [raw_row "2" "b@x.com" "7"]));
              (py "c.csv", Unreadable OSError)];
  MASTER_CSV := Missing;
  OUTPUT_CSV := Missing
|}.

(** A new source, and no master table to merge it into. *)
Definition world_without_master : World := {|
  PROCESSED_LOG := Missing;
  ADD_DIR := [(py "b.csv", Contents (frame [raw_row "2" "b@x.com" "7"]))];
  MASTER_CSV := Missing;
  OUTPUT_CSV := Missing
|}.

(** * Properties *)

(** ** The sort order *)

Ltac order_cases :=
  unfold row_before, cid_before, points_before;
  repeat match goal with
    | |- context [customer_id ?r] => destruct (customer_id r)
    | |- context [points ?r] => destruct (points r)
    end;
  simpl; intros;
  repeat match goal with
    | H : context [(?a <? ?b)] |- _ => destruct (Z.ltb_spec a b); simpl in H
    | |- context [(?a <? ?b)] => destruct (Z.ltb_spec a b); simpl
    end;
  try discriminate; try reflexivity; try lia.

Lemma row_before_irrefl r : row_before r r = false.
Proof. order_cases. Qed.

Lemma row_before_asym a b : row_before a b = true -> row_before b a = false.
Proof. order_cases. Qed.

Lemma row_before_trans a b c :
  row_before a b = true -> row_before b c = true -> row_before a c = true.
Proof. order_cases. Qed.

(** "Not before" is transitive as well: the keys are totally ordered. *)
Lemma not_before_trans a b c :
  row_before a b = false -> row_before b c = false -> row_before a c = false.
Proof. order_cases. Qed.

Lemma keys_tie_sym a b : keys_tie a b = keys_tie b a.
Proof. unfold keys_tie. apply andb_comm. Qed.

Lemma keys_tie_refl a : keys_tie a a = true.
Proof. unfold keys_tie. now rewrite row_before_irrefl. Qed.

(** ** Insertion and sorting *)

Lemma insert_row_perm r l : Permutation (r :: l) (insert_row r l).
Proof.
  induction l as [|y l IH]; simpl.
  - reflexivity.
  - destruct (row_before y r).
    + rewrite perm_swap. now apply perm_skip.
    + reflexivity.
Qed.

Lemma sort_values_perm l : Permutation l (sort_values l).
Proof.
  induction l as [|r l IH]; simpl.
  - reflexivity.
  - rewrite <- insert_row_perm. now apply perm_skip.
Qed.

Lemma in_insert_row x r l : In x (insert_row r l) <-> x = r \/ In x l.
Proof.
  split; intros H.
  - apply (Permutation_in _ (Permutation_sym (insert_row_perm r l))) in H.
    destruct H; auto.
  - apply (Permutation_in _ (insert_row_perm r l)).
    destruct H; [left | right]; auto.
Qed.

(** A row that nothing in [l] precedes is inserted in front. *)
Lemma insert_row_front r l :
  (forall y, In y l -> row_before y r = false) -> insert_row r l = r :: l.
Proof.
  destruct l as [|y l]; simpl; intros H.
  - reflexivity.
  - now rewrite (H y (or_introl eq_refl)).
Qed.

Lemma insert_row_sorted r l : rows_sorted l -> rows_sorted (insert_row r l).
Proof.
  induction l as [|y l IH]; simpl.
  - intros _. split; [intros ? [] | exact I].
  - intros [Hy Hl]. destruct (row_before y r) eqn:E; simpl.
    + split; [|now apply IH].
      intros z Hz. apply in_insert_row in Hz. destruct Hz as [->|Hz].
      * now apply row_before_asym.
      * now apply Hy.
    + split; [|now split].
      intros z [<-|Hz]; [exact E|].
      apply not_before_trans with y; auto.
Qed.

Lemma sort_values_sorted l : rows_sorted (sort_values l).
Proof.
  induction l as [|r l IH]; simpl; [exact I | now apply insert_row_sorted].
Qed.

(** Filtering commutes with insertion into a sorted list... *)
Lemma filter_insert_row (p : Row -> bool) r l :
  rows_sorted l ->
  List.filter p (insert_row r l) =
  if p r then insert_row r (List.filter p l) else List.filter p l.
Proof.
  induction l as [|y l IH]; simpl.
  - intros _. now destruct (p r).
  - intros [Hy Hl]. destruct (row_before y r) eqn:E; simpl.
    + rewrite (IH Hl). destruct (p y), (p r); simpl; try reflexivity.
      now rewrite E.
    + destruct (p r); [|reflexivity].
      symmetry. apply insert_row_front.
      intros z Hz.
      assert (Hin : In z (y :: l)).
      { destruct (p y); [|right; now apply filter_In in Hz].
        destruct Hz as [<-|Hz]; [now left | right; now apply filter_In in Hz]. }
      destruct Hin as [<-|Hin]; [exact E|].
      apply not_before_trans with y; auto.
Qed.

(** ... and therefore with sorting: the rows of [sort_values l] that
    satisfy [p] are the sorted rows of [l] that satisfy [p]. *)
Lemma filter_sort_values (p : Row -> bool) l :
  List.filter p (sort_values l) = sort_values (List.filter p l).
Proof.
  induction l as [|r l IH]; simpl; [reflexivity|].
  rewrite filter_insert_row by apply sort_values_sorted.
  rewrite IH. now destruct (p r).
Qed.

(** The first row of a sorted table: a row of the table that no row
    precedes, and the earliest such row. *)
Lemma sort_values_head l h t :
  sort_values l = h :: t ->
  In h l /\ (forall x, In x l -> row_before x h = false) /\
  List.find (fun x => negb (row_before h x)) l = Some h.
Proof.
  revert h t. induction l as [|x l IH]; simpl; intros h t E; [discriminate|].
  destruct (sort_values l) as [|h' t'] eqn:S.
  - assert (l = []) as ->.
    { pose proof (sort_values_perm l) as P. rewrite S in P.
      now apply Permutation_sym, Permutation_nil in P. }
    simpl in E. injection E as <- <-.
    rewrite row_before_irrefl. simpl.
    repeat split; auto. intros y [<-|[]]. apply row_before_irrefl.
  - destruct (IH _ _ eq_refl) as (Hin & Hmin & Hfind).
    simpl in E. destruct (row_before h' x) eqn:B; injection E as <- <-.
    + rewrite B. simpl. repeat split; auto.
      intros y [<-|Hy]; [now apply row_before_asym | now apply Hmin].
    + rewrite row_before_irrefl. simpl. repeat split; auto.
      intros y [<-|Hy]; [apply row_before_irrefl|].
      apply not_before_trans with h'; auto.
Qed.

(** ** Dropping duplicates *)

Lemma drop_duplicates_from_sublist seen l :
  sublist (drop_duplicates_from seen l) l.
Proof.
  revert seen. induction l as [|r l IH]; intros seen; simpl.
  - constructor.
  - case_bool_decide.
    + apply sublist_cons, IH.
    + apply sublist_skip, IH.
Qed.

Lemma same_key_true a b : same_key a b = true <-> dedup_key a = dedup_key b.
Proof. unfold same_key. now rewrite bool_decide_eq_true. Qed.

Lemma same_key_refl a : same_key a a = true.
Proof. now apply same_key_true. Qed.

(** Of the rows with the key of [k], the scan keeps the first one, or none
    when the key has been seen before. *)
Lemma filter_drop_duplicates_from k seen l :
  List.filter (same_key k) (drop_duplicates_from seen l) =
  if bool_decide (dedup_key k ∈ seen) then []
  else firstn 1 (List.filter (same_key k) l).
Proof.
  revert seen. induction l as [|r l IH]; intros seen;
    cbn [drop_duplicates_from List.filter].
  - now destruct (bool_decide _).
  - destruct (same_key k r) eqn:K.
    + apply same_key_true in K. rewrite <- K.
      case_bool_decide as Hs.
      * now rewrite IH, bool_decide_eq_true_2.
      * cbn [List.filter firstn]. unfold same_key at 1.
        rewrite (bool_decide_eq_true_2 _ K), IH.
        now rewrite bool_decide_eq_true_2 by set_solver.
    + assert (K' : dedup_key k <> dedup_key r).
      { intros E. apply same_key_true in E. congruence. }
      case_bool_decide as Hs.
      * apply IH.
      * cbn [List.filter]. rewrite K, IH.
        assert (E : dedup_key k ∈ {[dedup_key r]} ∪ seen <-> dedup_key k ∈ seen).
        { rewrite elem_of_union, elem_of_singleton. tauto. }
        now rewrite (bool_decide_ext _ _ E).
Qed.

Lemma filter_drop_duplicates k l :
  List.filter (same_key k) (drop_duplicates l) =
  firstn 1 (List.filter (same_key k) l).
Proof.
  unfold drop_duplicates. rewrite filter_drop_duplicates_from.
  now rewrite bool_decide_eq_false_2 by set_solver.
Qed.

(** ** Searching a list *)

Lemma find_filter {A} (p q : A -> bool) l :
  List.find p (List.filter q l) = List.find (fun x => q x && p x) l.
Proof.
  induction l as [|x l IH]; simpl; [reflexivity|].
  destruct (q x); simpl; [now rewrite IH | exact IH].
Qed.

Lemma find_ext_in {A} (p q : A -> bool) l :
  (forall x, In x l -> p x = q x) -> List.find p l = List.find q l.
Proof.
  induction l as [|x l IH]; simpl; intros H; [reflexivity|].
  rewrite (H x (or_introl eq_refl)), IH; auto.
Qed.

(** ** Points, compared as the merge compares them *)

(** [points_le a b]: [a] is at most [b], a missing value being below every
    number. *)
Lemma points_le_before a b : points_le a b <-> points_before a b = false.
Proof.
  unfold points_le, points_before. destruct a, b; simpl; try tauto.
  - rewrite Z.ltb_ge. tauto.
  - split; [tauto | discriminate].
Qed.

Lemma points_before_antisym (a b : option Z) :
  points_before a b = false -> points_before b a = false -> a = b.
Proof.
  unfold points_before. destruct a, b; simpl; try discriminate; auto.
  rewrite !Z.ltb_ge. intros. f_equal. lia.
Qed.

(** Among rows with the same customer id the order is the one of the
    points. *)
Lemma row_before_same_customer a b :
  customer_id a = customer_id b ->
  row_before a b = points_before (points a) (points b).
Proof.
  unfold row_before. intros ->.
  assert (cid_before (customer_id b) (customer_id b) = false) as ->; auto.
  unfold cid_before. destruct (customer_id b); auto. apply Z.ltb_irrefl.
Qed.

(** The rows of the merged table are rows of the two inputs, as
    multisets. *)
Lemma merged_submseteq existing incoming :
  merged existing incoming ⊆+ existing ++ incoming.
Proof.
  unfold merged, drop_duplicates, concat2.
  rewrite (sort_values_perm (existing ++ incoming)) at 2.
  apply sublist_submseteq, drop_duplicates_from_sublist.
Qed.

Lemma merged_rows_from_inputs_in existing incoming r :
  In r (merged existing incoming) -> In r (existing ++ incoming).
Proof.
  intros Hr. apply list_elem_of_In. apply list_elem_of_In in Hr.
  eapply elem_of_submseteq; [exact Hr | apply merged_submseteq].
Qed.

(** ** C10 *)

(** C10. The merge invents no rows: every row of the merged table is a row
    of the concatenation of the two inputs, the merged table is no longer
    than the two inputs together, and it is the concatenation with some
    rows dropped (as multisets). *)
Theorem merged_rows_from_inputs (existing incoming : list Row) :
  (forall r, In r (merged existing incoming) -> In r (existing ++ incoming)) /\
  (length (merged existing incoming) <= length existing + length incoming)%nat /\
  exists dropped,
    Permutation (existing ++ incoming) (merged existing incoming ++ dropped).
Proof.
  pose proof (merged_submseteq existing incoming) as S.
  split; [|split].
  - apply merged_rows_from_inputs_in.
  - rewrite <- length_app. now apply submseteq_length.
  - now apply submseteq_Permutation.
Qed.

(** ** C1 *)

Lemma same_key_customer a b :
  same_key a b = true -> customer_id a = customer_id b.
Proof. rewrite same_key_true. unfold dedup_key. congruence. Qed.

Lemma points_before_irrefl a : points_before a a = false.
Proof. destruct a; simpl; auto. apply Z.ltb_irrefl. Qed.

(** C1. For every row [r] of the concatenation (existing first, then
    incoming), exactly one row [s] with the key [(customer_id, email)] of
    [r] is in the merged table; no input row with that key has more points
    than [s]; and [s] is the earliest row of the concatenation that has
    this key and these points. *)
Theorem merged_keeps_best_of_each_key (existing incoming : list Row) (r : Row) :
  In r (existing ++ incoming) ->
  exists s,
    List.filter (same_key r) (merged existing incoming) = [s] /\
    (forall x, In x (existing ++ incoming) -> same_key r x = true ->
               points_le (points x) (points s)) /\
    List.find (fun x => same_key r x && bool_decide (points x = points s))
      (existing ++ incoming) = Some s.
Proof.
  intros Hr. unfold merged, concat2.
  set (cat := existing ++ incoming) in *.
  rewrite filter_drop_duplicates, filter_sort_values.
  set (g := List.filter (same_key r) cat).
  assert (Hg : In r g) by (apply filter_In; split; [exact Hr | apply same_key_refl]).
  destruct (sort_values g) as [|s t] eqn:S.
  { apply (Permutation_in _ (sort_values_perm g)) in Hg. rewrite S in Hg.
    destruct Hg. }
  destruct (sort_values_head _ _ _ S) as (Hs & Hmin & Hfind).
  apply filter_In in Hs. destruct Hs as [Hs Ks].
  assert (Hbest : forall x, In x cat -> same_key r x = true ->
            customer_id x = customer_id s /\
            points_before (points x) (points s) = false).
  { intros x Hx Kx.
    assert (C : customer_id x = customer_id s).
    { apply same_key_customer in Kx, Ks. congruence. }
    split; [exact C|].
    rewrite <- (row_before_same_customer x s C).
    apply Hmin, filter_In. now split. }
  exists s. split; [reflexivity|]. split.
  - intros x Hx Kx. apply points_le_before. now apply Hbest.
  - unfold g in Hfind. rewrite find_filter in Hfind. rewrite <- Hfind.
    apply find_ext_in. intros x Hx.
    destruct (same_key r x) eqn:Kx; [simpl | reflexivity].
    destruct (Hbest x Hx Kx) as [C B].
    rewrite (row_before_same_customer s x (eq_sym C)).
    destruct (points_before (points s) (points x)) eqn:B'; simpl.
    + apply bool_decide_eq_false_2. intros E. rewrite E in B'.
      now rewrite points_before_irrefl in B'.
    + apply bool_decide_eq_true_2. now apply points_before_antisym.
Qed.

(** Two sources for customer 5 with the same e-mail address, one with 10
    points and two with 50: the first of the rows with 50 points is kept. *)
Lemma merged_keeps_best_of_each_key_witness :
  exists s,
    List.filter (same_key (row 5 "A" "a@x.com" 10))
      (merged [row 5 "A" "a@x.com" 10]
              [row 5 "B" "a@x.com" 50; row 5 "C" "a@x.com" 50]) = [s] /\
    (forall x,
        In x ([row 5 "A" "a@x.com" 10] ++
              [row 5 "B" "a@x.com" 50; row 5 "C" "a@x.com" 50]) ->
        same_key (row 5 "A" "a@x.com" 10) x = true ->
        points_le (points x) (points s)) /\
    List.find
      (fun x => same_key (row 5 "A" "a@x.com" 10) x &&
                bool_decide (points x = points s))
      ([row 5 "A" "a@x.com" 10] ++
       [row 5 "B" "a@x.com" 50; row 5 "C" "a@x.com" 50]) = Some s.
Proof.
  apply (merged_keeps_best_of_each_key
           [row 5 "A" "a@x.com" 10]
           [row 5 "B" "a@x.com" 50; row 5 "C" "a@x.com" 50]
           (row 5 "A" "a@x.com" 10)).
  simpl. left. reflexivity.
Defined.

(** ** C6 *)

(** Insertion puts a row in front of the rows it ties with. *)
Lemma filter_tie_insert_row x r l :
  List.filter (keys_tie x) (insert_row r l) =
  if keys_tie x r then r :: List.filter (keys_tie x) l
  else List.filter (keys_tie x) l.
Proof.
  induction l as [|y l IH]; simpl.
  - now destruct (keys_tie x r).
  - destruct (row_before y r) eqn:E; simpl; [|now destruct (keys_tie x r)].
    rewrite IH. destruct (keys_tie x r) eqn:Tr; [|reflexivity].
    assert (keys_tie x y = false) as ->; [|reflexivity].
    destruct (keys_tie x y) eqn:Ty; [|reflexivity].
    unfold keys_tie in Tr, Ty.
    apply andb_prop in Tr, Ty. destruct Tr as [Tr _], Ty as [_ Ty].
    apply negb_true_iff in Tr, Ty.
    now rewrite (not_before_trans _ _ _ Ty Tr) in E.
Qed.

Lemma sort_values_stable l : stable_sort_of l (sort_values l).
Proof.
  split; [apply sort_values_perm|]. split; [apply sort_values_sorted|].
  intros r. induction l as [|y l IH]; simpl; [reflexivity|].
  rewrite filter_tie_insert_row, IH. reflexivity.
Qed.

(** A list has one stable sort only. *)
Lemma stable_sort_unique l l1 l2 :
  stable_sort_of l l1 -> stable_sort_of l l2 -> l1 = l2.
Proof.
  intros (P1 & S1 & F1) (P2 & S2 & F2).
  assert (P : Permutation l1 l2) by (now rewrite <- P1).
  assert (F : forall r, List.filter (keys_tie r) l1 = List.filter (keys_tie r) l2)
    by (intros r; now rewrite F1, F2).
  clear P1 P2 F1 F2 l. revert l2 S2 P F.
  induction l1 as [|a t1 IH]; intros l2 S2 P F.
  - now apply Permutation_nil in P.
  - destruct l2 as [|b t2].
    { apply Permutation_sym, Permutation_nil in P. discriminate. }
    destruct S1 as [Ha S1], S2 as [Hb S2].
    assert (Tab : keys_tie a b = true).
    { unfold keys_tie. apply andb_true_intro. split; apply negb_true_iff.
      - assert (In a (b :: t2)) as [<-|Hin]
          by (apply (Permutation_in _ P); now left);
          [apply row_before_irrefl | now apply Hb].
      - assert (In b (a :: t1)) as [<-|Hin]
          by (apply (Permutation_in _ (Permutation_sym P)); now left);
          [apply row_before_irrefl | now apply Ha]. }
    assert (a = b) as <-.
    { specialize (F a). simpl in F. rewrite keys_tie_refl, Tab in F.
      congruence. }
    f_equal. apply IH; auto.
    + now apply Permutation_cons_inv in P.
    + intros r. specialize (F r). simpl in F.
      destruct (keys_tie r a); congruence.
Qed.

(** C6. The merge is deterministic: whatever stable sort [sort_values]
    runs, two runs of the merge on the same two inputs end with the same
    sequence of rows, which is the one [merged] computes. *)
Theorem merge_deterministic (existing incoming out1 out2 : list Row) :
  merge_outcome existing incoming out1 ->
  merge_outcome existing incoming out2 ->
  out1 = out2 /\ out1 = merged existing incoming.
Proof.
  intros (s1 & H1 & ->) (s2 & H2 & ->).
  pose proof (sort_values_stable (concat2 existing incoming)) as H.
  rewrite (stable_sort_unique _ _ _ H1 H), (stable_sort_unique _ _ _ H2 H).
  split; reflexivity.
Qed.

Lemma merged_is_outcome existing incoming :
  merge_outcome existing incoming (merged existing incoming).
Proof.
  exists (sort_values (concat2 existing incoming)).
  split; [apply sort_values_stable | reflexivity].
Qed.

Lemma merge_deterministic_witness :
  [row 5 "B" "a@x.com" 50] = [row 5 "B" "a@x.com" 50] /\
  [row 5 "B" "a@x.com" 50] =
  merged [row 5 "A" "a@x.com" 10] [row 5 "B" "a@x.com" 50].
Proof.
  apply (merge_deterministic
           [row 5 "A" "a@x.com" 10] [row 5 "B" "a@x.com" 50]);
    exact (merged_is_outcome
             [row 5 "A" "a@x.com" 10] [row 5 "B" "a@x.com" 50]).
Defined.

(** ** The reference instance *)

Lemma reference_laws : RuntimeLaws reference_runtime.
Proof.
  split; simpl; unfold Reference.to_numeric.
  - intros col. apply length_map.
  - intros col i H. rewrite nth_error_map, H. reflexivity.
Qed.

(** ** C2 *)

Section NormalizerFacts.
Context {R : Runtime}.

Lemma normalize_phone_digits phone d :
  normalize_phone phone = Some d ->
  (length d = 10 \/ length d = 11)%nat /\ Forall (fun c => re_digit c = true) d.
Proof.
  unfold normalize_phone, sub_non_digits. destruct phone as [p|]; [|discriminate].
  destruct (_ || _) eqn:L; [|discriminate]. intros [= <-]. split.
  - apply orb_prop in L. rewrite !Nat.eqb_eq in L. exact L.
  - apply List.Forall_forall. intros c Hc. now apply filter_In in Hc.
Qed.

(** ** C3 *)

Lemma normalize_str_nonempty s : normalize_str s <> Some [].
Proof.
  unfold normalize_str. destruct s as [s|]; [|discriminate].
  destruct (nfkc (strip s)); discriminate.
Qed.

(** Where NFKC leaves no space at the ends of the string, a second pass
    changes nothing. *)
Lemma normalize_str_idempotent_when_stripped s :
  (forall t, nfkc (nfkc t) = nfkc t) ->
  strip (nfkc (strip s)) = nfkc (strip s) ->
  normalize_str (normalize_str (Some s)) = normalize_str (Some s).
Proof.
  intros Hn Hs. unfold normalize_str at 2 3.
  destruct (nfkc (strip s)) as [|c t] eqn:E; [reflexivity|].
  unfold normalize_str. rewrite Hs, <- E, Hn, E. reflexivity.
Qed.

End NormalizerFacts.

(** ** Columns and rows *)

Lemma in_data_frame r c n e ph a j p :
  In r (data_frame c n e ph a j p) ->
  In (customer_id r) c /\ In (name r) n /\ In (email r) e /\
  In (phone r) ph /\ In (address r) a /\ In (join_date r) j /\
  In (points r) p.
Proof.
  unfold data_frame. intros H. apply in_map_iff in H.
  destruct H as ([c0 [n0 [e0 [ph0 [a0 [j0 p0]]]]]] & <- & H). simpl.
  pose proof (in_combine_l _ _ _ _ H) as Hc. apply in_combine_r in H.
  pose proof (in_combine_l _ _ _ _ H) as Hn. apply in_combine_r in H.
  pose proof (in_combine_l _ _ _ _ H) as He. apply in_combine_r in H.
  pose proof (in_combine_l _ _ _ _ H) as Hph. apply in_combine_r in H.
  pose proof (in_combine_l _ _ _ _ H) as Ha. apply in_combine_r in H.
  pose proof (in_combine_l _ _ _ _ H) as Hj. apply in_combine_r in H.
  repeat split; assumption.
Qed.

Lemma map_snd_combine {A B} (l1 : list A) (l2 : list B) :
  (length l2 <= length l1)%nat -> List.map snd (combine l1 l2) = l2.
Proof.
  revert l2. induction l1 as [|x l1 IH]; intros [|y l2]; simpl; intros H;
    try reflexivity; try lia.
  f_equal. apply IH. lia.
Qed.

(** With columns of one length, the [points] of the rows are the [points]
    column. *)
Lemma data_frame_points c n e ph a j p :
  length c = length p -> length n = length p -> length e = length p ->
  length ph = length p -> length a = length p -> length j = length p ->
  List.map points (data_frame c n e ph a j p) = p.
Proof.
  intros Hc Hn He Hph Ha Hj. unfold data_frame. rewrite map_map.
  rewrite (map_ext _ (fun t => snd (snd (snd (snd (snd (snd t)))))))
    by (intros [c0 [n0 [e0 [ph0 [a0 [j0 p0]]]]]]; reflexivity).
  rewrite <- (map_map (fun t => snd (snd (snd (snd (snd t))))) snd).
  rewrite <- (map_map (fun t => snd (snd (snd (snd t)))) snd).
  rewrite <- (map_map (fun t => snd (snd (snd t))) snd).
  rewrite <- (map_map (fun t => snd (snd t)) snd).
  rewrite <- (map_map snd snd).
  repeat (rewrite map_snd_combine by (rewrite ?length_combine; lia)).
  reflexivity.
Qed.

(** ** Casting a column to [Int64] *)

Lemma Int64_of_raises v e : Int64_of v = Raise e -> e = TypeError.
Proof.
  destruct v as [|z|]; simpl; try congruence.
  destruct (_ && _); congruence.
Qed.

Lemma astype_Int64_raises col e : astype_Int64 col = Raise e -> e = TypeError.
Proof.
  unfold astype_Int64. induction col as [|v col IH]; simpl; [discriminate|].
  destruct (Int64_of v) eqn:V; simpl.
  - destruct (mapM Int64_of col); simpl; [discriminate|].
    intros [= <-]. now apply IH.
  - intros [= <-]. now apply Int64_of_raises in V.
Qed.

(** A number that is no integer cannot be cast. *)
Lemma astype_Int64_nonint col :
  In num_nonint col -> astype_Int64 col = Raise TypeError.
Proof.
  unfold astype_Int64. induction col as [|v col IH]; simpl; [intros []|].
  intros [->|H]; [reflexivity|].
  rewrite (IH H). destruct (Int64_of v) eqn:V; simpl; [reflexivity|].
  now rewrite (Int64_of_raises _ _ V).
Qed.

(** After [fillna(0)] a successful cast leaves no missing value: NaN has
    become 0 and an integer is kept. *)
Lemma astype_Int64_fillna0 col out :
  astype_Int64 (fillna0 col) = OK out ->
  Forall2 (fun v p => match v with
                      | num_nan => p = Some 0
                      | num_int z => p = Some z
                      | num_nonint => False
                      end) col out.
Proof.
  unfold astype_Int64. revert out.
  induction col as [|v col IH]; simpl; intros out.
  - intros [= <-]. constructor.
  - destruct (Int64_of _) as [p|] eqn:V; simpl; [|discriminate].
    destruct (mapM _ _) as [ps|]; simpl; [|discriminate].
    intros [= <-]. constructor; [|now apply IH].
    destruct v as [|z|]; simpl in V; try congruence.
    destruct (_ && _); congruence.
Qed.

Lemma Forall2_map_r {A B C} (P : A -> C -> Prop) (f : B -> C) l k :
  Forall2 P l (List.map f k) -> Forall2 (fun a b => P a (f b)) l k.
Proof.
  revert l. induction k as [|b k IH]; simpl; intros l H; inversion H; subst;
    constructor; auto.
Qed.

Lemma mapM_length {A B} (f : A -> result B) l out :
  mapM f l = OK out -> length out = length l.
Proof.
  revert out. induction l as [|a l IH]; simpl; intros out.
  - now intros [= <-].
  - destruct (f a); simpl; [|discriminate].
    destruct (mapM f l); simpl; [|discriminate].
    intros [= <-]. simpl. f_equal. now apply IH.
Qed.

(** ** [clean] *)

Section CleanFacts.
Context {R : Runtime}.

(** What a successful [clean] has computed. *)
Lemma clean_OK df out :
  clean df = OK out ->
  exists cids pts,
    astype_Int64
      (to_numeric (List.map normalize_str (List.map raw_customer_id (raw_rows df))))
      = OK cids /\
    astype_Int64 (fillna0 (to_numeric (points_column df))) = OK pts /\
    out = data_frame cids
            (List.map normalize_str (List.map raw_name (raw_rows df)))
            (List.map normalize_str (List.map raw_email (raw_rows df)))
            (List.map normalize_phone
               (List.map normalize_str (List.map raw_phone (raw_rows df))))
            (List.map normalize_str (List.map raw_address (raw_rows df)))
            (List.map normalize_date (List.map raw_join_date (raw_rows df)))
            pts.
Proof.
  unfold clean.
  destruct (astype_Int64 (to_numeric (List.map normalize_str _))) as [cids|]
    eqn:C; simpl; [|discriminate].
  destruct (astype_Int64 (fillna0 _)) as [pts|] eqn:P; simpl; [|discriminate].
  intros [= <-]. exists cids, pts. auto.
Qed.

(** C2. [normalize_phone] returns nothing, or a string of exactly 10 or 11
    characters that are all digits for the regular expression [\d]; and so
    is the phone cell of every row [clean] returns.  (The digits of [\d]
    are the Unicode decimal digits, of which the ASCII digits are a part.) *)
Theorem phone_is_null_or_digits :
  (forall ph d,
      normalize_phone ph = Some d ->
      (length d = 10 \/ length d = 11)%nat /\
      Forall (fun c => re_digit c = true) d) /\
  (forall df out r d,
      clean df = OK out -> In r out -> phone r = Some d ->
      (length d = 10 \/ length d = 11)%nat /\
      Forall (fun c => re_digit c = true) d).
Proof.
  split; [exact normalize_phone_digits|].
  intros df out r d H Hr Hd.
  destruct (clean_OK _ _ H) as (cids & pts & _ & _ & ->).
  apply in_data_frame in Hr. destruct Hr as (_ & _ & _ & Hph & _).
  rewrite Hd in Hph. apply in_map_iff in Hph. destruct Hph as (ph & E & _).
  now apply normalize_phone_digits in E.
Qed.

(** C3. A lone KATAKANA-HIRAGANA VOICED SOUND MARK (U+309B) is folded by
    NFKC to a space and the combining mark U+3099; [normalize_str] strips
    before it folds, so the space stays, and a second pass strips it: the
    function is not idempotent on this input. *)
Theorem normalize_str_twice_differs :
  nfkc voiced_sound_mark = space_and_combining_mark ->
  nfkc combining_mark = combining_mark ->
  normalize_str (Some voiced_sound_mark) = Some space_and_combining_mark /\
  normalize_str (normalize_str (Some voiced_sound_mark)) = Some combining_mark /\
  normalize_str (normalize_str (Some voiced_sound_mark))
    <> normalize_str (Some voiced_sound_mark).
Proof.
  intros H1 H2.
  assert (E1 : normalize_str (Some voiced_sound_mark) = Some space_and_combining_mark).
  { unfold normalize_str.
    change (strip voiced_sound_mark) with voiced_sound_mark.
    now rewrite H1. }
  assert (E2 : normalize_str (Some space_and_combining_mark) = Some combining_mark).
  { unfold normalize_str.
    change (strip space_and_combining_mark) with combining_mark.
    now rewrite H2. }
  rewrite E1, E2. repeat split. discriminate.
Qed.

(** C4. [clean] is not total: when [pd.to_numeric] makes a number that is
    no integer of some cell of the [points] column (as "1.5"), the cast to
    [Int64] raises [TypeError] and so does [clean]. *)
Theorem clean_raises_on_fractional_points df :
  In num_nonint (to_numeric (points_column df)) ->
  clean df = Raise TypeError.
Proof.
  intros H. unfold clean.
  destruct (astype_Int64 (to_numeric (List.map normalize_str _))) as [cids|e]
    eqn:C; simpl.
  - rewrite astype_Int64_nonint; [reflexivity|].
    unfold fillna0. apply in_map_iff. exists num_nonint. auto.
  - now rewrite (astype_Int64_raises _ _ C).
Qed.

(** The cast of [customer_id] fails in the same way. *)
Lemma clean_raises_on_fractional_customer_id df :
  In num_nonint
    (to_numeric (List.map normalize_str (List.map raw_customer_id (raw_rows df)))) ->
  clean df = Raise TypeError.
Proof.
  intros H. unfold clean. now rewrite (astype_Int64_nonint _ H).
Qed.

(** C5. Every row [clean] returns has points, never a missing value: a
    cell that [pd.to_numeric] could not read has become 0, and a cell read
    as an integer keeps that integer, negative or not.  Without a [points]
    column all points are 0. *)
Theorem points_never_null `{!RuntimeLaws R} df out :
  clean df = OK out ->
  Forall2 (fun v r => match v with
                      | num_nan => points r = Some 0
                      | num_int z => points r = Some z
                      | num_nonint => False
                      end) (to_numeric (points_column df)) out /\
  Forall (fun r => exists z, points r = Some z) out /\
  (has_points df = false -> Forall (fun r => points r = Some 0) out).
Proof.
  intros H. destruct (clean_OK _ _ H) as (cids & pts & C & P & ->).
  pose proof (astype_Int64_fillna0 _ _ P) as F.
  assert (Lp : length pts = length (raw_rows df)).
  { rewrite <- (Forall2_length _ _ _ F), to_numeric_length.
    unfold points_column. destruct (has_points df); apply length_map. }
  assert (Lc : length cids = length (raw_rows df)).
  { rewrite (mapM_length _ _ _ C), to_numeric_length, !length_map.
    reflexivity. }
  set (out := data_frame _ _ _ _ _ _ _).
  assert (E : List.map points out = pts)
    by (apply data_frame_points; rewrite ?length_map; lia).
  rewrite <- E in F. apply Forall2_map_r in F.
  split; [exact F|]. split.
  - clear -F. induction F as [|v r col rows Hv _ IH]; constructor; auto.
    destruct v; [eauto | eauto | destruct Hv].
  - intros Hp.
    assert (N : forall v, In v (to_numeric (points_column df)) -> v = num_nan).
    { intros v Hv. apply In_nth_error in Hv. destruct Hv as [i Hi].
      assert (Hlt : (i < length (points_column df))%nat).
      { rewrite <- to_numeric_length. apply nth_error_Some. congruence. }
      rewrite to_numeric_missing in Hi; [congruence|].
      unfold points_column in *. rewrite Hp in *.
      rewrite nth_error_map. rewrite length_map in Hlt.
      destruct (nth_error (raw_rows df) i) eqn:Ei; [reflexivity|].
      apply nth_error_None in Ei. lia. }
    clear -F N. induction F as [|v r col rows Hv _ IH]; constructor.
    + rewrite (N v) in Hv by (now left). exact Hv.
    + apply IH. intros w Hw. apply N. now right.
Qed.

End CleanFacts.

(** ** The normalisers on concrete inputs *)

(** Eleven Arabic-Indic digits are digits for [\d], so the phone number
    made of them is kept as it is, by [normalize_phone] and by [clean]; none
    of its characters is an ASCII digit. *)
Lemma phone_of_arabic_indic_digits :
  @normalize_phone reference_runtime (Some arabic_indic_phone)
    = Some arabic_indic_phone /\
  length arabic_indic_phone = 11%nat /\
  forallb ascii_digit arabic_indic_phone = false /\
  exists r,
    @clean reference_runtime (frame [raw_phone_row arabic_indic_phone]) = OK [r] /\
    phone r = Some arabic_indic_phone.
Proof.
  split; [reflexivity|]. split; [reflexivity|]. split; [reflexivity|].
  eexists. split; reflexivity.
Qed.

Lemma normalize_str_twice_differs_witness :
  @normalize_str reference_runtime (Some voiced_sound_mark)
    = Some space_and_combining_mark /\
  @normalize_str reference_runtime
    (@normalize_str reference_runtime (Some voiced_sound_mark))
    = Some combining_mark /\
  @normalize_str reference_runtime
    (@normalize_str reference_runtime (Some voiced_sound_mark))
    <> @normalize_str reference_runtime (Some voiced_sound_mark).
Proof.
  apply (@normalize_str_twice_differs reference_runtime); reflexivity.
Defined.

Lemma clean_raises_on_fractional_points_witness :
  @clean reference_runtime (frame [raw_row "1" "a@x.com" "1.5"])
    = Raise TypeError.
Proof.
  apply (@clean_raises_on_fractional_points reference_runtime).
  simpl. left. reflexivity.
Defined.

(** Points read as -5 leave [clean] as -5. *)
Lemma negative_points_pass_through :
  exists r z,
    @clean reference_runtime (frame [raw_row "1" "a@x.com" "-5"]) = OK [r] /\
    points r = Some z /\ z < 0.
Proof.
  eexists. exists (-5). split; [reflexivity|]. split; [reflexivity | lia].
Qed.

Lemma points_never_null_witness :
  exists out,
    @clean reference_runtime
      (frame [raw_row "1" "a@x.com" "-5"; raw_row "2" "b@x.com" "many"])
      = OK out /\
    Forall (fun r => exists z, points r = Some z) out.
Proof.
  eexists. split; [reflexivity|].
  apply (@points_never_null reference_runtime reference_laws
           (frame [raw_row "1" "a@x.com" "-5"; raw_row "2" "b@x.com" "many"])).
  reflexivity.
Defined.

(** ** The new files of a run *)

Lemma mapM_OK_Forall2 {A B} (f : A -> result B) l out :
  mapM f l = OK out -> Forall2 (fun a b => f a = OK b) l out.
Proof.
  revert out. induction l as [|a l IH]; simpl; intros out.
  - intros [= <-]. constructor.
  - destruct (f a) eqn:E; simpl; [|discriminate].
    destruct (mapM f l); simpl; [|discriminate].
    intros [= <-]. constructor; auto.
Qed.

Lemma in_add_files_of {A : Type} (already : gset str) (listing : list (str * A)) p :
  In p (add_files_of already listing) <-> In p listing /\ p.1 ∉ already.
Proof.
  induction listing as [|q l IH]; simpl; [tauto|].
  case_bool_decide as Hq; simpl; rewrite IH; intuition (subst; tauto).
Qed.

Section MainFacts.
Context {R : Runtime}.

(** C7. The new files of a run are the files of the listing whose name is
    not in the set of processed names, in the order of the listing: their
    names are what [filter_new] returns on the names of the listing.  The
    rows of the table a run writes come from the master table and from
    such files only, so a file whose name is in the set is no input of the
    merge. *)
Theorem new_files_are_the_unprocessed_candidates :
  (forall (A : Type) (already : gset str) (listing : list (str * A)),
      List.map fst (add_files_of already listing)
        = filter_new already (List.map fst listing) /\
      sublist (add_files_of already listing) listing /\
      forall p, In p (add_files_of already listing)
                <-> In p listing /\ p.1 ∉ already) /\
  (forall w w' already merged_rows r,
      load_already (PROCESSED_LOG w) = OK already ->
      main w = OK w' ->
      add_files_of already (ADD_DIR w) <> [] ->
      OUTPUT_CSV w' = Contents merged_rows ->
      In r merged_rows ->
      (exists master, read_and_clean (MASTER_CSV w) = OK master /\ In r master) \/
      (exists p df, In p (ADD_DIR w) /\ (p.1 ∉ already) /\
                    read_and_clean p.2 = OK df /\ In r df)).
Proof.
  split.
  - intros A already listing. split; [|split].
    + unfold filter_new.
      induction listing as [|q l IH]; simpl; [reflexivity|].
      case_bool_decide; simpl; now rewrite IH.
    + induction listing as [|q l IH]; simpl; [constructor|].
      case_bool_decide; [now apply sublist_cons | now apply sublist_skip].
    + apply in_add_files_of.
  - intros w w' already rows r La Hm Hnew Ho Hr.
    unfold main in Hm. rewrite La in Hm. cbn [bind] in Hm.
    destruct (add_files_of already (ADD_DIR w)) as [|p0 ps] eqn:Ef.
    { now destruct Hnew. }
    destruct (read_and_clean (MASTER_CSV w)) as [master|] eqn:Em;
      cbn [bind] in Hm; [|discriminate].
    destruct (mapM (fun p => read_and_clean p.2) (p0 :: ps)) as [dfs|] eqn:Ed;
      cbn [bind] in Hm; [|discriminate].
    injection Hm as <-. cbn [OUTPUT_CSV] in Ho. injection Ho as <-.
    apply merged_rows_from_inputs_in in Hr.
    apply in_app_or in Hr. destruct Hr as [Hr|Hr].
    + left. eauto.
    + right. apply in_concat in Hr. destruct Hr as (df & Hdf & Hr).
      apply mapM_OK_Forall2 in Ed.
      assert (X : exists p, In p (p0 :: ps) /\ read_and_clean p.2 = OK df).
      { clear -Ed Hdf. induction Ed as [|a b l k Hab _ IH]; [destruct Hdf|].
        destruct Hdf as [<-|Hdf].
        - exists a. split; [now left | exact Hab].
        - destruct (IH Hdf) as (p & Hp & E). exists p. split; [now right | exact E]. }
      destruct X as (p & Hp & E). rewrite <- Ef in Hp.
      apply in_add_files_of in Hp. destruct Hp as [Hp Hn].
      exists p, df. auto.
Qed.

End MainFacts.

(** ** C8 *)

(** C8. A ledger that does not exist is read as the empty set.  A ledger
    that exists but cannot be read or decoded is not: reading it raises,
    and the run fails with that error. *)
Theorem missing_ledger_is_empty :
  load_already Missing = OK ∅ /\
  (forall e, load_already (Unreadable e) = Raise e) /\
  (forall (R : Runtime) w e, PROCESSED_LOG w = Unreadable e -> main w = Raise e).
Proof.
  split; [reflexivity|]. split; [reflexivity|].
  intros R w e H. unfold main. rewrite H. reflexivity.
Qed.

(** A ledger that is not UTF-8 text is not taken for an empty one: the run
    fails. *)
Lemma undecodable_ledger_fails_the_run :
  load_already (PROCESSED_LOG world_with_undecodable_ledger) <> OK ∅ /\
  @main reference_runtime world_with_undecodable_ledger
    = Raise UnicodeDecodeError.
Proof. split; [discriminate | reflexivity]. Qed.

(** ** C9 *)

(** C9. A source whose file name starts with a space: the run ingests it
    and writes its name to the ledger, but the ledger is read back with
    every line stripped.  After the run the set of processed names holds
    the stripped name and not the name of the source, so it is not the set
    before the run with the merged names added, and the next run takes the
    same source again. *)
Theorem ledger_reads_back_stripped_names :
  exists w',
    @main reference_runtime world_with_spaced_name = OK w' /\
    load_already (PROCESSED_LOG world_with_spaced_name) = OK ∅ /\
    load_already (PROCESSED_LOG w') = OK {[ py "x.csv" ]} /\
    ({[ py "x.csv" ]} : gset str) <> ∅ ∪ {[ spaced_name ]} /\
    add_files_of ({[ py "x.csv" ]} : gset str) (ADD_DIR w') = ADD_DIR w'.
Proof.
  eexists. split; [reflexivity|]. split; [reflexivity|].
  split; [vm_compute; reflexivity|]. split; [|reflexivity].
  intros E.
  assert (H : spaced_name ∈ ({[ py "x.csv" ]} : gset str)).
  { rewrite E. apply elem_of_union_r, elem_of_singleton. reflexivity. }
  apply elem_of_singleton in H. discriminate.
Qed.

(** ** The ledger with plain names *)

(** A newline ends a line whatever follows it. *)
Lemma splitlines_from_newline cur s t :
  splitlines_from cur (s ++ 10%N :: t) =
  splitlines_from cur (s ++ [10%N]) ++ splitlines_from [] t.
Proof.
  remember (length s) as n eqn:Hn. revert cur s Hn.
  induction n as [n IH] using lt_wf_ind. intros cur s Hn.
  destruct s as [|c s]; simpl.
  - destruct t; reflexivity.
  - destruct (is_linebreak c) eqn:Lc.
    + destruct s as [|c' s]; simpl.
      * destruct (c =? 13)%N; simpl; [reflexivity|].
        destruct t; reflexivity.
      * destruct ((c =? 13)%N && (c' =? 10)%N); f_equal.
        -- apply (IH (length s)); [simpl in Hn; lia | reflexivity].
        -- apply (IH (length (c' :: s)) ltac:(simpl in *; lia) [] (c' :: s)).
           reflexivity.
    + apply (IH (length s)); [simpl in Hn; lia | reflexivity].
Qed.

(** A name without line boundary, followed by a newline, is one line. *)
Lemma splitlines_from_name cur n :
  forallb (fun c => negb (is_linebreak c)) n = true ->
  splitlines_from cur (n ++ [10%N]) = [rev cur ++ n].
Proof.
  revert cur. induction n as [|c n IH]; simpl; intros cur H.
  - now rewrite app_nil_r.
  - apply andb_prop in H. destruct H as [Hc Hn].
    apply negb_true_iff in Hc. rewrite Hc, (IH _ Hn). simpl.
    now rewrite <- app_assoc.
Qed.

(** Appending a plain name and a newline to a well-formed ledger adds the
    name to the set of processed names. *)
Lemma load_after_write txt n :
  txt = [] \/ (exists t, txt = t ++ [10%N]) ->
  plain_name n ->
  List.map strip (splitlines (txt ++ (n ++ [10%N]))) =
  List.map strip (splitlines txt) ++ [n].
Proof.
  intros Hw [Hs Hl]. unfold splitlines.
  destruct Hw as [->|[t ->]].
  - simpl. rewrite (splitlines_from_name [] n Hl). simpl. now rewrite Hs.
  - rewrite <- app_assoc. simpl.
    rewrite splitlines_from_newline, map_app.
    rewrite (splitlines_from_name [] n Hl). simpl. now rewrite Hs.
Qed.

(** With plain names and a well-formed ledger the set of processed names
    after the write is the set before it and the names written. *)
Lemma record_processed_adds_names log names pre :
  ledger_well_formed log ->
  Forall plain_name names ->
  load_already log = OK pre ->
  ledger_well_formed (record_processed log names) /\
  load_already (record_processed log names) = OK (pre ∪ list_to_set names).
Proof.
  intros Hw Hn Hpre. unfold record_processed.
  set (old := match log with Contents txt => txt | _ => [] end).
  assert (Hold : old = [] \/ exists t, old = t ++ [10%N]).
  { destruct log; simpl in *; tauto. }
  assert (Hset : pre = list_to_set (List.map strip (splitlines old))).
  { destruct log as [|e|txt]; [|destruct Hw|];
      unfold load_already in Hpre; simpl in Hpre; injection Hpre as <-;
      reflexivity. }
  clear Hw Hpre. subst pre. clearbody old. revert old Hold.
  induction Hn as [|n names Hp _ IH]; intros old Hold; cbn [fold_left].
  - split; [exact Hold|]. unfold load_already. simpl. f_equal.
    now rewrite union_empty_r_L.
  - destruct (IH (old ++ (n ++ [10%N]))) as [W L].
    { right. exists (old ++ n). now rewrite <- app_assoc. }
    split; [exact W|]. etransitivity; [exact L|]. f_equal.
    pose proof (load_after_write old n Hold Hp) as E.
    unfold str, char in *. rewrite E.
    change (List.map strip (splitlines old)) with (strip <$> splitlines old).
    rewrite list_to_set_app_L, list_to_set_cons. cbn [list_to_set foldr].
    now rewrite union_empty_r_L, <- (assoc_L (∪)).
Qed.

Section LedgerFacts.
Context {R : Runtime}.

(** A run over sources with plain names, on a well-formed ledger, leaves
    the set of processed names as it was before the run, with the names of
    the sources it merged added. *)
Lemma run_extends_ledger w w' pre :
  ledger_well_formed (PROCESSED_LOG w) ->
  Forall (fun p => plain_name p.1) (ADD_DIR w) ->
  load_already (PROCESSED_LOG w) = OK pre ->
  main w = OK w' ->
  load_already (PROCESSED_LOG w')
    = OK (pre ∪ list_to_set (List.map fst (add_files_of pre (ADD_DIR w)))).
Proof.
  intros Hw Hn Hpre Hm. unfold main in Hm. rewrite Hpre in Hm.
  cbn [bind] in Hm.
  assert (Hnames : Forall plain_name (List.map fst (add_files_of pre (ADD_DIR w)))).
  { apply List.Forall_forall. intros n Hin. apply in_map_iff in Hin.
    destruct Hin as (p & <- & Hp). apply in_add_files_of in Hp.
    destruct Hp as [Hp _].
    exact (proj1 (List.Forall_forall _ _) Hn p Hp). }
  destruct (add_files_of pre (ADD_DIR w)) as [|p0 ps] eqn:Ef.
  - injection Hm as <-. rewrite Hpre. f_equal. simpl.
    now rewrite union_empty_r_L.
  - destruct (read_and_clean (MASTER_CSV w)); cbn [bind] in Hm; [|discriminate].
    destruct (mapM (fun p => read_and_clean p.2) (p0 :: ps));
      cbn [bind] in Hm; [|discriminate].
    injection Hm as <-. cbn [PROCESSED_LOG].
    now apply record_processed_adds_names.
Qed.

End LedgerFacts.

(** ** The scenarios of the specification, on the reference instance *)

(** Scenario A: a source without [points] column. *)
Example scenario_A :
  @clean reference_runtime
    {| has_points := false;
       raw_rows := [ {| raw_customer_id := Some (py "1");
                        raw_name := Some (py " Tanaka ");
                        raw_email := None;
                        raw_phone := Some (py "090-1234-5678");
                        raw_address := None;
                        raw_join_date := Some (py "2024-02-29");
                        raw_points := None |} ] |}
  = OK [ {| customer_id := Some 1;
            name := Some (py "Tanaka");
            email := None;
            phone := Some (py "09012345678");
            address := None;
            join_date := Some (py "2024-02-29");
            points := Some 0 |} ].
Proof. reflexivity. Qed.

(** Scenario B: the row with 50 points wins over the one with 10. *)
Example scenario_B :
  merged [row 5 "A" "a@x.com" 10] [row 5 "B" "a@x.com" 50]
  = [row 5 "B" "a@x.com" 50].
Proof. reflexivity. Qed.

(** Rows without customer id come last, and rows that lack both fields of
    the key fall together. *)
Example missing_keys_collapse :
  merged
    [ {| customer_id := None; name := Some (py "X"); email := None;
         phone := None; address := None; join_date := None;
         points := Some 1 |};
      row 7 "A" "a@x.com" 0 ]
    [ {| customer_id := None; name := Some (py "Y"); email := None;
         phone := None; address := None; join_date := None;
         points := Some 2 |} ]
  = [ row 7 "A" "a@x.com" 0;
      {| customer_id := None; name := Some (py "Y"); email := None;
         phone := None; address := None; join_date := None;
         points := Some 2 |} ].
Proof. reflexivity. Qed.

(** Scenario D: five digits are no phone number. *)
Example scenario_D :
  @normalize_phone reference_runtime (Some (py "12345")) = None /\
  @normalize_phone reference_runtime (Some (py "(090) 1234-5678"))
    = Some (py "09012345678").
Proof. split; reflexivity. Qed.

(** * Further properties *)

(** ** Phone numbers *)

Lemma filter_all_true {A} (f : A -> bool) l :
  Forall (fun x => f x = true) l -> List.filter f l = l.
Proof.
  induction 1 as [|x l Hx _ IH]; simpl; [reflexivity|].
  now rewrite Hx, IH.
Qed.

Section PhoneFacts.
Context {R : Runtime}.

(** X1. [normalize_phone] is idempotent: a phone number it has returned is
    returned unchanged when it is normalised again, and nothing stays
    nothing. *)
Theorem normalize_phone_idempotent ph :
  normalize_phone (normalize_phone ph) = normalize_phone ph.
Proof.
  destruct (normalize_phone ph) as [d|] eqn:E; [|reflexivity].
  destruct (normalize_phone_digits _ _ E) as [L D].
  unfold normalize_phone, sub_non_digits. rewrite (filter_all_true _ _ D).
  destruct L as [-> | ->]; reflexivity.
Qed.

(** X2. Characters that are no digits do not count: a phone number with
    such a character written anywhere in it is normalised to the same
    value as without it. *)
Theorem normalize_phone_ignores_non_digits a c b :
  re_digit c = false ->
  normalize_phone (Some (a ++ c :: b)) = normalize_phone (Some (a ++ b)).
Proof.
  intros Hc. unfold normalize_phone, sub_non_digits.
  rewrite !List.filter_app. simpl. now rewrite Hc.
Qed.

End PhoneFacts.

Lemma normalize_phone_ignores_non_digits_witness :
  @normalize_phone reference_runtime (Some (py "090" ++ 45%N :: py "12345678"))
  = @normalize_phone reference_runtime (Some (py "090" ++ py "12345678")).
Proof.
  apply (@normalize_phone_ignores_non_digits reference_runtime).
  reflexivity.
Defined.

(** ** Strings *)

(** The reference folding table is idempotent. *)
Lemma reference_nfkc_char_idempotent c :
  Reference.nfkc (Reference.nfkc_char c) = Reference.nfkc_char c.
Proof.
  unfold Reference.nfkc, Reference.nfkc_char.
  repeat match goal with
    | |- context [(?a =? ?b)%N] => destruct (N.eqb_spec a b); simpl
    | |- context [(?a <=? ?b)%N] => destruct (N.leb_spec a b); simpl
    end;
    try reflexivity; try lia.
Qed.

Lemma reference_nfkc_idempotent t :
  Reference.nfkc (Reference.nfkc t) = Reference.nfkc t.
Proof.
  unfold Reference.nfkc at 2 3. induction t as [|c t IH]; simpl; [reflexivity|].
  unfold Reference.nfkc in *. rewrite flat_map_app, IH.
  f_equal. apply reference_nfkc_char_idempotent.
Qed.

Section StringFacts.
Context {R : Runtime}.

(** X3. Where NFKC is idempotent and its result for the stripped input has
    no white space at either end, [normalize_str] is idempotent: a value it
    has returned is returned unchanged by a second call. *)
Theorem normalize_str_idempotent_without_folded_space x :
  (forall t, nfkc (nfkc t) = nfkc t) ->
  (forall s, x = Some s -> strip (nfkc (strip s)) = nfkc (strip s)) ->
  normalize_str (normalize_str x) = normalize_str x.
Proof.
  intros Hn Hs. destruct x as [s|]; [|reflexivity].
  apply normalize_str_idempotent_when_stripped; auto.
Qed.

End StringFacts.

Lemma normalize_str_idempotent_without_folded_space_witness :
  @normalize_str reference_runtime
    (@normalize_str reference_runtime (Some (py " Tanaka ")))
  = @normalize_str reference_runtime (Some (py " Tanaka ")).
Proof.
  apply (@normalize_str_idempotent_without_folded_space reference_runtime).
  - exact reference_nfkc_idempotent.
  - intros s [= <-]. reflexivity.
Defined.

(** ** More on [clean] *)




Lemma astype_Int64_range col out z :
  astype_Int64 col = OK out -> In (Some z) out -> int64_range z.
Proof.
  unfold astype_Int64. revert out.
  induction col as [|v col IH]; simpl; intros out.
  - intros [= <-] [].
  - destruct (Int64_of v) as [p|] eqn:V; simpl; [|discriminate].
    destruct (mapM Int64_of col) as [ps|]; simpl; [|discriminate].
    intros [= <-] [->|H]; [|now apply (IH ps)].
    destruct v as [|z'|]; simpl in V; try discriminate.
    destruct (_ && _) eqn:B; [|discriminate]. injection V as ->.
    apply andb_prop in B. unfold int64_range. lia.
Qed.

(** The rows of a table whose columns are computed from a list of raw
    rows. *)
Lemma data_frame_rowwise {A} (f1 f2 f3 f4 f5 : A -> option str) raws c p
    (P : A -> Row -> Prop) :
  length c = length raws -> length p = length raws ->
  (forall a ci pi, P a (Build_Row ci (f1 a) (f2 a) (f3 a) (f4 a) (f5 a) pi)) ->
  Forall2 P raws
    (data_frame c (List.map f1 raws) (List.map f2 raws) (List.map f3 raws)
       (List.map f4 raws) (List.map f5 raws) p).
Proof.
  intros Hc Hp HP. revert c p Hc Hp.
  induction raws as [|a raws IH]; intros [|ci c] [|pi p] Hc Hp;
    simpl in Hc, Hp; try discriminate.
  - constructor.
  - unfold data_frame. simpl. constructor; [apply HP|].
    apply IH; lia.
Qed.

Section CleanMore.
Context {R : Runtime}.

(** X4. [clean] keeps the rows and their order: the table it returns has
    one row for each raw row, in the same order, whose name, e-mail
    address, phone, address and join date are computed from the cells of
    that raw row alone. *)
Theorem clean_is_rowwise `{!RuntimeLaws R} df out :
  clean df = OK out ->
  Forall2 text_fields_cleaned (raw_rows df) out.
Proof.
  intros H. destruct (clean_OK _ _ H) as (cids & pts & C & P & ->).
  rewrite !map_map.
  apply (data_frame_rowwise
           (fun a => normalize_str (raw_name a))
           (fun a => normalize_str (raw_email a))
           (fun a => normalize_phone (normalize_str (raw_phone a)))
           (fun a => normalize_str (raw_address a))
           (fun a => normalize_date (raw_join_date a))).
  - rewrite (mapM_length _ _ _ C), to_numeric_length, !length_map. reflexivity.
  - rewrite (mapM_length _ _ _ P). unfold fillna0.
    rewrite length_map, to_numeric_length. unfold points_column.
    destruct (has_points df); apply length_map.
  - intros a ci pi. repeat split.
Qed.


(** X6. The customer ids and the points of the rows [clean] returns are
    integers of 64 bits. *)
Theorem clean_values_fit_int64 df out r :
  clean df = OK out -> In r out ->
  (forall z, customer_id r = Some z -> int64_range z) /\
  (forall z, points r = Some z -> int64_range z).
Proof.
  intros H Hr. destruct (clean_OK _ _ H) as (cids & pts & C & P & ->).
  apply in_data_frame in Hr. destruct Hr as (Hc & _ & _ & _ & _ & _ & Hp).
  split; intros z E.
  - rewrite E in Hc. exact (astype_Int64_range _ _ _ C Hc).
  - rewrite E in Hp. exact (astype_Int64_range _ _ _ P Hp).
Qed.

End CleanMore.

Lemma clean_is_rowwise_witness :
  exists out,
    @clean reference_runtime
      (frame [raw_row "1" "a@x.com" "-5"; raw_row "2" "b@x.com" "many"])
      = OK out /\
    Forall2 (@text_fields_cleaned reference_runtime)
      [raw_row "1" "a@x.com" "-5"; raw_row "2" "b@x.com" "many"] out.
Proof.
  eexists. split; [reflexivity|].
  apply (@clean_is_rowwise reference_runtime reference_laws
           (frame [raw_row "1" "a@x.com" "-5"; raw_row "2" "b@x.com" "many"])).
  reflexivity.
Defined.

Lemma clean_values_fit_int64_witness :
  (forall z, customer_id
               {| customer_id := Some 1; name := None;
                  email := Some (py "a@x.com"); phone := None;
                  address := None; join_date := None; points := Some (-5) |}
             = Some z -> int64_range z) /\
  (forall z, points
               {| customer_id := Some 1; name := None;
                  email := Some (py "a@x.com"); phone := None;
                  address := None; join_date := None; points := Some (-5) |}
             = Some z -> int64_range z).
Proof.
  apply (@clean_values_fit_int64 reference_runtime
           (frame [raw_row "1" "a@x.com" "-5"])
           [ {| customer_id := Some 1; name := None;
                email := Some (py "a@x.com"); phone := None;
                address := None; join_date := None; points := Some (-5) |} ]).
  - reflexivity.
  - left. reflexivity.
Defined.

(** ** More on the merge *)

(** The scan keeps one row for each key it has not seen. *)
Lemma drop_duplicates_from_keys seen l k :
  In k (List.map dedup_key (drop_duplicates_from seen l)) <->
  In k (List.map dedup_key l) /\ k ∉ seen.
Proof.
  revert seen. induction l as [|r l IH]; intros seen; simpl; [tauto|].
  case_bool_decide as Hs; simpl; rewrite IH.
  - split; [tauto|]. intros [[<-|H] Hk]; [contradiction | tauto].
  - rewrite elem_of_union, elem_of_singleton. split.
    + intros [<-|[H Hk]]; [tauto|]. split; [tauto|]. intros Hk'. apply Hk. tauto.
    + intros [[<-|H] Hk]; [tauto|].
      destruct (decide (k = dedup_key r)) as [->|Hne]; [tauto|].
      right. split; [exact H|]. intros [E|Hk']; contradiction.
Qed.

Lemma drop_duplicates_from_NoDup seen l :
  NoDup (List.map dedup_key (drop_duplicates_from seen l)).
Proof.
  revert seen. induction l as [|r l IH]; intros seen; simpl; [constructor|].
  case_bool_decide as Hs; simpl; [apply IH|].
  apply NoDup_cons_2; [|apply IH].
  rewrite list_elem_of_In, drop_duplicates_from_keys.
  rewrite elem_of_union, elem_of_singleton. tauto.
Qed.

(** A table without repeated key passes the scan unchanged. *)
Lemma drop_duplicates_from_id seen l :
  NoDup (List.map dedup_key l) ->
  (forall r, In r l -> dedup_key r ∉ seen) ->
  drop_duplicates_from seen l = l.
Proof.
  revert seen. induction l as [|r l IH]; intros seen Hn Hs; simpl; [reflexivity|].
  simpl in Hn. apply NoDup_cons in Hn. destruct Hn as [Hr Hn].
  rewrite bool_decide_eq_false_2 by (apply Hs; now left).
  f_equal. apply IH; [exact Hn|].
  intros x Hx. rewrite elem_of_union, elem_of_singleton.
  intros [E|Hx']; [|apply (Hs x); [now right | exact Hx']].
  apply Hr. rewrite <- E. apply list_elem_of_In, in_map, Hx.
Qed.

Lemma rows_sorted_sublist l1 l2 :
  sublist l1 l2 -> rows_sorted l2 -> rows_sorted l1.
Proof.
  induction 1 as [|x l1 l2 Hs IH|x l1 l2 Hs IH]; simpl; [tauto| |tauto].
  intros [Hx Hl]. split; [|now apply IH].
  intros y Hy. apply Hx. apply list_elem_of_In.
  eapply elem_of_sublist; [apply list_elem_of_In, Hy | exact Hs].
Qed.

(** A sorted table is sorted to itself. *)
Lemma sort_values_of_sorted l : rows_sorted l -> sort_values l = l.
Proof.
  induction l as [|r l IH]; simpl; [reflexivity|].
  intros [Hr Hl]. rewrite (IH Hl). now apply insert_row_front.
Qed.

Lemma merged_sorted existing incoming : rows_sorted (merged existing incoming).
Proof.
  unfold merged, drop_duplicates.
  eapply rows_sorted_sublist;
    [apply drop_duplicates_from_sublist | apply sort_values_sorted].
Qed.

Lemma merged_keys_NoDup existing incoming :
  NoDup (List.map dedup_key (merged existing incoming)).
Proof. apply drop_duplicates_from_NoDup. Qed.

Lemma merged_keys existing incoming k :
  In k (List.map dedup_key (merged existing incoming)) <->
  In k (List.map dedup_key (existing ++ incoming)).
Proof.
  unfold merged, drop_duplicates, concat2.
  rewrite drop_duplicates_from_keys.
  split.
  - intros [H _]. apply in_map_iff in H. destruct H as (r & <- & Hr).
    apply in_map. apply (Permutation_in _ (Permutation_sym (sort_values_perm _))).
    exact Hr.
  - intros H. split; [|apply not_elem_of_empty].
    apply in_map_iff in H. destruct H as (r & <- & Hr).
    apply in_map. now apply (Permutation_in _ (sort_values_perm _)).
Qed.

(** X7. The merged table has one row for each key of the inputs: no key
    occurs twice in it, its keys are the keys of the input rows, and its
    length is the number of distinct keys of the inputs. *)
Theorem merged_has_one_row_per_key (existing incoming : list Row) :
  NoDup (List.map dedup_key (merged existing incoming)) /\
  (forall k, In k (List.map dedup_key (merged existing incoming)) <->
             In k (List.map dedup_key (existing ++ incoming))) /\
  length (merged existing incoming) =
  size (list_to_set (List.map dedup_key (existing ++ incoming))
          : gset (option Z * option str)).
Proof.
  split; [apply merged_keys_NoDup|]. split; [apply merged_keys|].
  rewrite <- (length_map dedup_key).
  rewrite <- (size_list_to_set (C := gset (option Z * option str)))
    by apply merged_keys_NoDup.
  f_equal. apply set_eq. intros k.
  rewrite !elem_of_list_to_set, !list_elem_of_In. apply merged_keys.
Qed.

(** X8. The merged table is in the order of the sort: no row comes after a
    row with a larger customer id (a missing id being the largest), or
    after a row of the same customer with fewer points. *)
Theorem merged_is_sorted (existing incoming : list Row) :
  rows_sorted (merged existing incoming) /\
  forall i j ri rj,
    (i < j)%nat ->
    nth_error (merged existing incoming) i = Some ri ->
    nth_error (merged existing incoming) j = Some rj ->
    row_before rj ri = false.
Proof.
  split; [apply merged_sorted|].
  generalize (merged_sorted existing incoming).
  generalize (merged existing incoming) as l.
  induction l as [|r l IH]; intros Hs i j ri rj Hij Hi Hj.
  - destruct i; discriminate.
  - destruct Hs as [Hr Hl]. destruct j as [|j]; [lia|]. simpl in Hj.
    destruct i as [|i]; simpl in Hi.
    + injection Hi as <-. apply Hr. eapply nth_error_In; eauto.
    + apply (IH Hl i j); auto. lia.
Qed.

(** The row kept for the key of an input row: the only row of the result
    with that key, an input row with that key that no input row with that
    key precedes in the sort order. *)
Lemma merged_survivor l r :
  In r l ->
  exists s,
    List.filter (same_key r) (drop_duplicates (sort_values l)) = [s] /\
    In s l /\ same_key r s = true /\
    forall x, In x l -> same_key r x = true -> row_before x s = false.
Proof.
  intros Hr. rewrite filter_drop_duplicates, filter_sort_values.
  set (g := List.filter (same_key r) l).
  assert (Hg : In r g) by (apply filter_In; split; [exact Hr | apply same_key_refl]).
  destruct (sort_values g) as [|s t] eqn:S.
  { apply (Permutation_in _ (sort_values_perm g)) in Hg. rewrite S in Hg.
    destruct Hg. }
  destruct (sort_values_head _ _ _ S) as (Hs & Hmin & _).
  apply filter_In in Hs. destruct Hs as [Hs Ks].
  exists s. repeat split; auto.
  intros x Hx Kx. apply Hmin, filter_In. now split.
Qed.

Lemma in_merged_in_inputs l s :
  In s (drop_duplicates (sort_values l)) -> In s l.
Proof.
  intros H. apply (Permutation_in _ (Permutation_sym (sort_values_perm l))).
  apply list_elem_of_In.
  eapply elem_of_sublist; [apply list_elem_of_In, H|].
  apply drop_duplicates_from_sublist.
Qed.

(** A row of the result is the row kept for its own key. *)
Lemma in_merged_unbeaten l s :
  In s (drop_duplicates (sort_values l)) ->
  forall x, In x l -> same_key s x = true -> row_before x s = false.
Proof.
  intros H. destruct (merged_survivor l s (in_merged_in_inputs _ _ H))
    as (s' & F & _ & _ & Hmin).
  assert (In s [s']) as [<-|[]]; [|exact Hmin].
  rewrite <- F. apply filter_In. split; [exact H | apply same_key_refl].
Qed.

Lemma points_le_antisym a b : points_le a b -> points_le b a -> a = b.
Proof.
  rewrite !points_le_before. intros H1 H2. now apply points_before_antisym.
Qed.

(** The keys of the result with their points: the keys of the input rows,
    each with the largest points an input row with that key has. *)
Lemma merged_key_and_points l k p :
  In (k, p) (List.map key_and_points (drop_duplicates (sort_values l))) <->
  (exists r, In r l /\ dedup_key r = k /\ points r = p) /\
  (forall x, In x l -> dedup_key x = k -> points_le (points x) p).
Proof.
  split.
  - intros H. apply in_map_iff in H. destruct H as (s & E & Hs).
    injection E as <- <-.
    split; [exists s; split; [now apply in_merged_in_inputs | auto]|].
    intros x Hx Kx. apply points_le_before.
    rewrite <- (row_before_same_customer x s)
      by (unfold dedup_key in Kx; congruence).
    apply (in_merged_unbeaten l s Hs x Hx). apply same_key_true. congruence.
  - intros [(r & Hr & <- & <-) Hmax].
    destruct (merged_survivor l r Hr) as (s & F & Hs & Ks & Hmin).
    apply in_map_iff. exists s. split.
    + unfold key_and_points. apply same_key_true in Ks. rewrite <- Ks.
      f_equal. apply points_le_antisym.
      * apply Hmax; [exact Hs | now symmetry].
      * apply points_le_before.
        rewrite <- (row_before_same_customer r s)
          by (unfold dedup_key in Ks; congruence).
        apply Hmin; [exact Hr | apply same_key_refl].
    + assert (In s [s]) as H by now left.
      rewrite <- F in H. now apply filter_In in H.
Qed.

(** X9. Which keys are in the merged table, and with how many points,
    does not depend on the order of the input rows, nor on which of the
    two tables a row is in: two merges over the same rows keep the same
    keys with the same points. *)
Theorem merged_keys_and_points_order_free (a b c d : list Row) :
  Permutation (a ++ b) (c ++ d) ->
  forall kp,
    In kp (List.map key_and_points (merged a b)) <->
    In kp (List.map key_and_points (merged c d)).
Proof.
  intros P [k p]. unfold merged, concat2. rewrite !merged_key_and_points.
  split; intros [(r & Hr & E) Hmax]; split.
  - exists r. split; [now apply (Permutation_in _ P) | exact E].
  - intros x Hx. apply Hmax. now apply (Permutation_in _ (Permutation_sym P)).
  - exists r. split; [now apply (Permutation_in _ (Permutation_sym P)) | exact E].
  - intros x Hx. apply Hmax. now apply (Permutation_in _ P).
Qed.

Lemma merged_keys_and_points_order_free_witness :
  In (Some 5, Some (py "a@x.com"), Some 50)
     (List.map key_and_points
        (merged [row 5 "A" "a@x.com" 10] [row 5 "B" "a@x.com" 50])) <->
  In (Some 5, Some (py "a@x.com"), Some 50)
     (List.map key_and_points
        (merged [row 5 "B" "a@x.com" 50] [row 5 "A" "a@x.com" 10])).
Proof.
  apply (merged_keys_and_points_order_free
           [row 5 "A" "a@x.com" 10] [row 5 "B" "a@x.com" 50]
           [row 5 "B" "a@x.com" 50] [row 5 "A" "a@x.com" 10]).
  simpl. apply perm_swap.
Defined.

(** ** Merging a merged table again *)

Lemma keys_tie_trans a b c :
  keys_tie a b = true -> keys_tie b c = true -> keys_tie a c = true.
Proof.
  unfold keys_tie. rewrite !andb_true_iff, !negb_true_iff.
  intros [H1 H2] [H3 H4]. split; eapply not_before_trans; eauto.
Qed.

Lemma filter_all_false {A} (f : A -> bool) l :
  (forall x, In x l -> f x = false) -> List.filter f l = [].
Proof.
  induction l as [|x l IH]; simpl; intros H; [reflexivity|].
  rewrite (H x (or_introl eq_refl)). apply IH. auto.
Qed.

Lemma filter_filter_andb {A} (f g : A -> bool) l :
  List.filter f (List.filter g l) = List.filter (fun x => g x && f x) l.
Proof.
  induction l as [|x l IH]; simpl; [reflexivity|].
  destruct (g x); simpl; [destruct (f x)|]; now rewrite IH.
Qed.

(** Two sorted tables with the same rows in every class of equal sort keys
    are the same table. *)
Lemma sorted_tables_equal u v :
  rows_sorted u -> rows_sorted v ->
  (forall r, List.filter (keys_tie r) u = List.filter (keys_tie r) v) ->
  u = v.
Proof.
  revert v. induction u as [|a u IH]; intros v Su Sv F.
  - destruct v as [|b v]; [reflexivity|].
    specialize (F b). simpl in F. now rewrite keys_tie_refl in F.
  - destruct v as [|b v].
    { specialize (F a). simpl in F. now rewrite keys_tie_refl in F. }
    destruct Su as [Ha Su], Sv as [Hb Sv].
    assert (Ia : In a (b :: v)).
    { assert (H : In a (List.filter (keys_tie a) (a :: u)))
        by (simpl; rewrite keys_tie_refl; now left).
      rewrite F in H. now apply filter_In in H. }
    assert (Ib : In b (a :: u)).
    { assert (H : In b (List.filter (keys_tie b) (b :: v)))
        by (simpl; rewrite keys_tie_refl; now left).
      rewrite <- F in H. now apply filter_In in H. }
    assert (Tab : keys_tie a b = true).
    { unfold keys_tie. apply andb_true_intro. split; apply negb_true_iff.
      - destruct Ia as [<-|Ia]; [apply row_before_irrefl | now apply Hb].
      - destruct Ib as [<-|Ib]; [apply row_before_irrefl | now apply Ha]. }
    assert (a = b) as <-.
    { specialize (F a). simpl in F. rewrite keys_tie_refl, Tab in F.
      congruence. }
    f_equal. apply IH; auto.
    intros r. specialize (F r). simpl in F.
    destruct (keys_tie r a); congruence.
Qed.

Lemma in_drop_duplicates_from seen l s :
  In s (drop_duplicates_from seen l) -> In s l /\ dedup_key s ∉ seen.
Proof.
  intros H. split.
  - apply list_elem_of_In.
    eapply elem_of_sublist; [apply list_elem_of_In, H|].
    apply drop_duplicates_from_sublist.
  - assert (K : In (dedup_key s) (List.map dedup_key (drop_duplicates_from seen l)))
      by now apply in_map.
    now apply drop_duplicates_from_keys in K.
Qed.

(** A key seen before the scan is a key filtered out after it. *)
Lemma drop_duplicates_from_seen_more k seen l :
  drop_duplicates_from ({[k]} ∪ seen) l =
  List.filter (fun s => negb (bool_decide (dedup_key s = k)))
    (drop_duplicates_from seen l).
Proof.
  revert seen. induction l as [|r l IH]; intros seen; simpl; [reflexivity|].
  destruct (decide (dedup_key r = k)) as [E|E].
  - rewrite (bool_decide_eq_true_2 (dedup_key r ∈ {[k]} ∪ seen))
      by (rewrite elem_of_union, elem_of_singleton; tauto).
    case_bool_decide as Hs; [apply IH|].
    simpl. rewrite (bool_decide_eq_true_2 _ E). simpl.
    rewrite E, <- IH. f_equal. apply set_eq. intros x.
    rewrite !elem_of_union. tauto.
  - rewrite (bool_decide_ext (dedup_key r ∈ {[k]} ∪ seen) (dedup_key r ∈ seen))
      by (rewrite elem_of_union, elem_of_singleton; tauto).
    case_bool_decide as Hs; [apply IH|].
    simpl. rewrite (bool_decide_eq_false_2 _ E). simpl.
    rewrite <- IH. do 2 f_equal. apply set_eq. intros x.
    rewrite !elem_of_union. tauto.
Qed.

Lemma drop_duplicates_from_app seen u w :
  drop_duplicates_from seen (u ++ w) =
  drop_duplicates_from seen u ++
  drop_duplicates_from (list_to_set (List.map dedup_key u) ∪ seen) w.
Proof.
  revert seen. induction u as [|r u IH]; intros seen; simpl.
  - f_equal. apply set_eq. intros x. rewrite elem_of_union.
    split; [tauto|]. intros [H|H]; [|exact H]. now apply not_elem_of_empty in H.
  - case_bool_decide as Hs; simpl; rewrite IH.
    + do 2 f_equal. apply set_eq. intros x.
      rewrite !elem_of_union, elem_of_singleton.
      split; [tauto|]. intros [[->|H]|H]; tauto.
    + do 3 f_equal. apply set_eq. intros x.
      rewrite !elem_of_union. tauto.
Qed.

Lemma unbeaten_same_rows l l' s :
  (forall x, In x l <-> In x l') -> unbeaten l s = unbeaten l' s.
Proof.
  intros H. unfold unbeaten. apply eq_true_iff_eq.
  rewrite !forallb_forall. split; intros F x Hx; apply F, H, Hx.
Qed.

Lemma unbeaten_cons y l s :
  unbeaten (y :: l) s = negb (beaten_by y s) && unbeaten l s.
Proof. reflexivity. Qed.

(** The rows of a class of equal sort keys that the scan of a sorted table
    keeps: the first row of each key of the class, unless a row with that
    key comes before the class. *)
Lemma filter_tie_drop_duplicates_from r z seen :
  rows_sorted z ->
  List.filter (keys_tie r) (drop_duplicates_from seen z) =
  List.filter (unbeaten z)
    (drop_duplicates_from seen (List.filter (keys_tie r) z)).
Proof.
  revert seen. induction z as [|y z IH]; intros seen Sz; [reflexivity|].
  destruct Sz as [Hy Sz].
  assert (A : forall seen' s,
             keys_tie r y = true ->
             In s (drop_duplicates_from seen' (List.filter (keys_tie r) z)) ->
             unbeaten (y :: z) s = unbeaten z s).
  { intros seen' s Ty Hs. rewrite unbeaten_cons.
    apply in_drop_duplicates_from in Hs. destruct Hs as [Hs _].
    apply filter_In in Hs. destruct Hs as [_ Ts].
    rewrite keys_tie_sym in Ty.
    pose proof (keys_tie_trans _ _ _ Ty Ts) as T.
    unfold keys_tie in T. apply andb_prop in T. destruct T as [T _].
    apply negb_true_iff in T. unfold beaten_by. rewrite T.
    now rewrite andb_false_r. }
  assert (B : forall s,
             keys_tie r y = false -> In s (List.filter (keys_tie r) z) ->
             row_before y s = true).
  { intros s Ty Hs. apply filter_In in Hs. destruct Hs as [Hs Ts].
    destruct (row_before y s) eqn:E; [reflexivity|].
    assert (T : keys_tie s y = true).
    { unfold keys_tie. now rewrite (Hy s Hs), E. }
    now rewrite (keys_tie_trans _ _ _ Ts T) in Ty. }
  cbn [drop_duplicates_from List.filter].
  case_bool_decide as Hs.
  - rewrite (IH seen Sz).
    destruct (keys_tie r y) eqn:Ty; cbn [drop_duplicates_from].
    + rewrite (bool_decide_eq_true_2 _ Hs).
      apply filter_ext_in. intros s Hin. symmetry. now apply (A seen).
    + apply filter_ext_in. intros s Hin. rewrite unbeaten_cons.
      apply in_drop_duplicates_from in Hin. destruct Hin as [_ Hk].
      unfold beaten_by, same_key.
      rewrite bool_decide_eq_false_2 by (intros E; rewrite E in Hk; contradiction).
      reflexivity.
  - cbn [List.filter].
    destruct (keys_tie r y) eqn:Ty; cbn [drop_duplicates_from List.filter].
    + rewrite (bool_decide_eq_false_2 _ Hs). cbn [List.filter].
      assert (unbeaten (y :: z) y = true) as ->.
      { rewrite unbeaten_cons. unfold beaten_by at 1.
        rewrite row_before_irrefl, andb_false_r. simpl.
        unfold unbeaten. apply forallb_forall. intros x Hx.
        unfold beaten_by. now rewrite (Hy x Hx), andb_false_r. }
      f_equal. rewrite (IH _ Sz).
      apply filter_ext_in. intros s Hin. symmetry. now apply (A _ s eq_refl Hin).
    + rewrite (IH _ Sz), drop_duplicates_from_seen_more, filter_filter_andb.
      apply filter_ext_in. intros s Hin. rewrite unbeaten_cons.
      apply in_drop_duplicates_from in Hin. destruct Hin as [Hin _].
      unfold beaten_by, same_key. now rewrite (B s eq_refl Hin), andb_true_r.
Qed.

Lemma filter_tie_merged r l :
  List.filter (keys_tie r) (drop_duplicates (sort_values l)) =
  List.filter (unbeaten l) (drop_duplicates (List.filter (keys_tie r) l)).
Proof.
  unfold drop_duplicates.
  rewrite filter_tie_drop_duplicates_from by apply sort_values_sorted.
  destruct (sort_values_stable l) as (P & _ & F). rewrite F.
  apply filter_ext. intros s. apply unbeaten_same_rows. intros x. split.
  - apply Permutation_in. now symmetry.
  - now apply Permutation_in.
Qed.

Lemma NoDup_map_filter {A B} (f : A -> B) (p : A -> bool) l :
  NoDup (List.map f l) -> NoDup (List.map f (List.filter p l)).
Proof.
  induction l as [|x l IH]; simpl; [auto|].
  rewrite NoDup_cons. intros [Hx Hl].
  destruct (p x); simpl; [|now apply IH].
  apply NoDup_cons. split; [|now apply IH].
  intros H. apply Hx. apply list_elem_of_In. apply list_elem_of_In in H.
  apply in_map_iff in H. destruct H as (y & E & Hy).
  apply filter_In in Hy. apply in_map_iff. exists y. tauto.
Qed.

(** X10. Merging the merged table with rows that were inputs of the merge
    changes nothing: the same table is returned, row for row.  So merging
    the same sources a second time into the table they were merged into is
    harmless, and so is merging with nothing. *)
Theorem merged_absorbs_its_inputs (existing incoming again : list Row) :
  (forall x, In x again -> In x (existing ++ incoming)) ->
  merged (merged existing incoming) again = merged existing incoming.
Proof.
  intros Hy.
  set (l := existing ++ incoming).
  assert (Em : merged existing incoming = drop_duplicates (sort_values l))
    by reflexivity.
  set (m := merged existing incoming) in *.
  assert (Hm : forall x, In x (m ++ again) -> In x l).
  { intros x Hx. apply in_app_or in Hx. destruct Hx as [Hx|Hx]; [|auto].
    rewrite Em in Hx. now apply in_merged_in_inputs. }
  apply sorted_tables_equal; [apply merged_sorted | apply merged_sorted |].
  intros r. unfold merged at 1, concat2.
  rewrite filter_tie_merged, List.filter_app.
  set (M := List.filter (keys_tie r) m).
  unfold drop_duplicates. rewrite drop_duplicates_from_app.
  rewrite (drop_duplicates_from_id ∅ M);
    [| apply NoDup_map_filter, merged_keys_NoDup
     | intros x _; apply not_elem_of_empty].
  rewrite List.filter_app.
  rewrite (filter_all_true (unbeaten (m ++ again)) M).
  - rewrite filter_all_false; [apply app_nil_r|].
    intros t Ht. apply in_drop_duplicates_from in Ht. destruct Ht as [Ht Kt].
    apply filter_In in Ht. destruct Ht as [Ht Tt].
    destruct (merged_survivor l t (Hy t Ht)) as (s & F & Hs & Ks & Hmin).
    assert (Sm : In s m).
    { assert (H : In s [s]) by now left.
      rewrite <- F, <- Em in H. now apply filter_In in H. }
    assert (Ts : keys_tie r s = false).
    { destruct (keys_tie r s) eqn:E; [|reflexivity]. exfalso. apply Kt.
      rewrite elem_of_union. left. rewrite elem_of_list_to_set.
      apply same_key_true in Ks. rewrite Ks.
      apply list_elem_of_In, in_map, filter_In. now split. }
    assert (Bst : row_before s t = true).
    { destruct (row_before s t) eqn:E; [reflexivity|].
      assert (T : keys_tie t s = true).
      { unfold keys_tie.
        now rewrite E, (Hmin t (Hy t Ht) (same_key_refl t)). }
      now rewrite (keys_tie_trans _ _ _ Tt T) in Ts. }
    destruct (unbeaten (m ++ again) t) eqn:U; [|reflexivity].
    unfold unbeaten in U. rewrite forallb_forall in U.
    specialize (U s (in_or_app _ _ _ (or_introl Sm))).
    unfold beaten_by in U. now rewrite Ks, Bst in U.
  - apply List.Forall_forall. intros s Hs.
    apply filter_In in Hs. destruct Hs as [Hs _].
    unfold unbeaten. apply forallb_forall. intros x Hx.
    unfold beaten_by. destruct (same_key s x) eqn:K; [|reflexivity].
    rewrite Em in Hs.
    now rewrite (in_merged_unbeaten l s Hs x (Hm x Hx) K).
Qed.

Lemma merged_absorbs_its_inputs_witness :
  merged
    (merged [row 5 "A" "a@x.com" 10]
            [row 5 "B" "a@x.com" 50; row 6 "C" "c@x.com" 1])
    [row 5 "B" "a@x.com" 50; row 6 "C" "c@x.com" 1]
  = merged [row 5 "A" "a@x.com" 10]
           [row 5 "B" "a@x.com" 50; row 6 "C" "c@x.com" 1].
Proof.
  apply (merged_absorbs_its_inputs
           [row 5 "A" "a@x.com" 10]
           [row 5 "B" "a@x.com" 50; row 6 "C" "c@x.com" 1]
           [row 5 "B" "a@x.com" 50; row 6 "C" "c@x.com" 1]).
  intros x Hx. simpl. right. exact Hx.
Defined.

(** ** More on the ledger *)

Lemma lstrip_starts_without_space s : starts_without_space (lstrip s).
Proof.
  induction s as [|c s IH]; simpl; [exact I|].
  destruct (isspace c) eqn:E; [exact IH | exact E].
Qed.

Lemma lstrip_id s : starts_without_space s -> lstrip s = s.
Proof. destruct s as [|c s]; simpl; [reflexivity|]. now intros ->. Qed.

(** What [lstrip] removes is in front of what it returns. *)
Lemma lstrip_suffix s : exists p, s = p ++ lstrip s.
Proof.
  induction s as [|c s [p IH]]; simpl.
  - now exists [].
  - destruct (isspace c); [|now exists []].
    exists (c :: p). simpl. now f_equal.
Qed.

Lemma rstrip_starts_without_space s :
  starts_without_space s -> starts_without_space (rstrip s).
Proof.
  intros H. unfold rstrip.
  destruct (lstrip_suffix (rev s)) as [p E].
  apply (f_equal (@rev char)) in E. rewrite rev_involutive, rev_app_distr in E.
  destruct (rev (lstrip (rev s))) as [|c t]; [exact I|].
  rewrite E in H. exact H.
Qed.

(** [strip] is idempotent. *)
Lemma strip_idempotent s : strip (strip s) = strip s.
Proof.
  unfold strip.
  rewrite (lstrip_id (rstrip (lstrip s)))
    by apply rstrip_starts_without_space, lstrip_starts_without_space.
  unfold rstrip at 1. unfold rstrip at 1. rewrite rev_involutive.
  rewrite lstrip_id by apply lstrip_starts_without_space.
  reflexivity.
Qed.

Lemma in_load_already log already n :
  load_already log = OK already ->
  n ∈ already -> In n (ledger_lines log).
Proof.
  destruct log as [|e|txt]; simpl.
  - intros [= <-] H. now apply not_elem_of_empty in H.
  - discriminate.
  - intros [= <-] H. apply elem_of_list_to_set in H.
    now apply list_elem_of_In.
Qed.

(** X11. The names in the set of processed names are stripped names: a
    name with white space at either end is in no such set, whatever the
    ledger holds, so a source with such a file name is among the new files
    of every run. *)
Theorem spaced_names_are_never_processed (A : Type) log already
    (listing : list (str * A)) p :
  load_already log = OK already ->
  strip p.1 <> p.1 ->
  In p listing ->
  (p.1 ∉ already) /\ In p (add_files_of already listing).
Proof.
  intros H Hp Hin.
  assert (N : p.1 ∉ already).
  { intros Hn. apply (in_load_already _ _ _ H) in Hn.
    destruct log as [|e|txt]; simpl in Hn; try contradiction.
    apply in_map_iff in Hn. destruct Hn as (line & E & _).
    apply Hp. rewrite <- E. apply strip_idempotent. }
  split; [exact N|]. now apply in_add_files_of.
Qed.

Lemma spaced_names_are_never_processed_witness :
  (spaced_name ∉ ({[ py "x.csv" ]} : gset str)) /\
  In (spaced_name, tt)
     (add_files_of {[ py "x.csv" ]} [(py "a.csv", tt); (spaced_name, tt)]).
Proof.
  apply (spaced_names_are_never_processed unit
           (Contents (py " x.csv" ++ [10%N])) {[ py "x.csv" ]}
           [(py "a.csv", tt); (spaced_name, tt)] (spaced_name, tt)).
  - vm_compute. reflexivity.
  - discriminate.
  - right. left. reflexivity.
Defined.

(** The ledger file is only appended to. *)
Lemma ledger_lines_record_processed log names :
  ledger_well_formed log ->
  Forall plain_name names ->
  ledger_well_formed (record_processed log names) /\
  ledger_lines (record_processed log names) = ledger_lines log ++ names.
Proof.
  intros Hw Hn. unfold record_processed.
  set (old := match log with Contents txt => txt | _ => [] end).
  assert (Hold : old = [] \/ exists t, old = t ++ [10%N]).
  { destruct log; simpl in *; tauto. }
  assert (Hl : ledger_lines log = List.map strip (splitlines old)).
  { destruct log as [|e|txt]; [reflexivity | destruct Hw | reflexivity]. }
  rewrite Hl. clear Hw Hl. clearbody old. revert old Hold.
  induction Hn as [|n names Hp _ IH]; intros old Hold; cbn [fold_left].
  - split; [exact Hold|]. simpl. now rewrite app_nil_r.
  - destruct (IH (old ++ (n ++ [10%N]))) as [W L].
    { right. exists (old ++ n). now rewrite <- app_assoc. }
    split; [exact W|]. etransitivity; [exact L|].
    pose proof (load_after_write old n Hold Hp) as E.
    unfold str, char in *. rewrite E, <- app_assoc. reflexivity.
Qed.

(** X12. Recording plain names in a well-formed ledger appends them: the
    names read back from the ledger are the names it held, in their order,
    followed by the recorded names in theirs; nothing is removed or
    changed, and the ledger stays well-formed. *)
Theorem ledger_is_append_only log names :
  ledger_well_formed log ->
  Forall plain_name names ->
  ledger_well_formed (record_processed log names) /\
  ledger_lines (record_processed log names) = ledger_lines log ++ names /\
  load_already (record_processed log names)
    = OK (list_to_set (ledger_lines log ++ names)).
Proof.
  intros Hw Hn.
  destruct (ledger_lines_record_processed log names Hw Hn) as [W L].
  split; [exact W|]. split; [exact L|].
  rewrite <- L. reflexivity.
Qed.

Lemma plain_name_csv : plain_name (py "b.csv") /\ plain_name (py "c.csv").
Proof. split; split; reflexivity. Qed.

Lemma ledger_is_append_only_witness :
  ledger_well_formed
    (record_processed (Contents (py "a.csv" ++ [10%N])) [py "b.csv"; py "c.csv"]) /\
  ledger_lines
    (record_processed (Contents (py "a.csv" ++ [10%N])) [py "b.csv"; py "c.csv"])
    = ledger_lines (Contents (py "a.csv" ++ [10%N])) ++ [py "b.csv"; py "c.csv"] /\
  load_already
    (record_processed (Contents (py "a.csv" ++ [10%N])) [py "b.csv"; py "c.csv"])
    = OK (list_to_set
            (ledger_lines (Contents (py "a.csv" ++ [10%N]))
             ++ [py "b.csv"; py "c.csv"])).
Proof.
  apply (ledger_is_append_only
           (Contents (py "a.csv" ++ [10%N])) [py "b.csv"; py "c.csv"]).
  - right. exists (py "a.csv"). reflexivity.
  - destruct plain_name_csv as [Hb Hc]. repeat constructor; assumption.
Defined.

(** ** More on [main] *)

Lemma add_files_of_nil {A : Type} (already : gset str) (listing : list (str * A)) :
  (forall p, In p listing -> p.1 ∈ already) ->
  add_files_of already listing = [].
Proof.
  induction listing as [|q l IH]; simpl; intros H; [reflexivity|].
  rewrite bool_decide_eq_true_2 by (apply H; now left).
  apply IH. auto.
Qed.


Section MainMore.
Context {R : Runtime}.

(** What a successful run with new files has done. *)
Lemma main_OK w w' already :
  load_already (PROCESSED_LOG w) = OK already ->
  main w = OK w' ->
  (add_files_of already (ADD_DIR w) = [] /\ w' = w) \/
  (add_files_of already (ADD_DIR w) <> [] /\
   exists master dfs,
     read_and_clean (MASTER_CSV w) = OK master /\
     mapM (fun p => read_and_clean p.2) (add_files_of already (ADD_DIR w))
       = OK dfs /\
     w' = {| PROCESSED_LOG :=
               record_processed (PROCESSED_LOG w)
                 (List.map fst (add_files_of already (ADD_DIR w)));
             ADD_DIR := ADD_DIR w;
             MASTER_CSV := MASTER_CSV w;
             OUTPUT_CSV := Contents (merged master (List.concat dfs)) |}).
Proof.
  intros La Hm. unfold main in Hm. rewrite La in Hm. cbn [bind] in Hm.
  destruct (add_files_of already (ADD_DIR w)) as [|p0 ps] eqn:Ef.
  - left. split; [reflexivity | congruence].
  - right. split; [discriminate|].
    destruct (read_and_clean (MASTER_CSV w)) as [master|] eqn:Em;
      cbn [bind] in Hm; [|discriminate].
    destruct (mapM (fun p => read_and_clean p.2) (p0 :: ps)) as [dfs|] eqn:Ed;
      cbn [bind] in Hm; [|discriminate].
    injection Hm as <-. eauto.
Qed.


(** X14. When every source of the directory is in the set of processed
    names, the run does nothing and succeeds; it does not even read the
    master table or the sources, so it succeeds when they cannot be
    read. *)
Theorem main_without_new_files_does_nothing w already :
  load_already (PROCESSED_LOG w) = OK already ->
  (forall p, In p (ADD_DIR w) -> p.1 ∈ already) ->
  main w = OK w.
Proof.
  intros La H. unfold main. rewrite La. cbn [bind].
  now rewrite (add_files_of_nil _ _ H).
Qed.

(** X15. With source names that are plain and a well-formed ledger, a run
    records what it has merged: after it the ledger is well-formed, the
    set of processed names is the set before the run and the names of the
    new files, and a second run over the same directory finds nothing new
    and changes nothing. *)
Theorem main_ingests_exactly_once w w' pre :
  ledger_well_formed (PROCESSED_LOG w) ->
  Forall (fun p => plain_name p.1) (ADD_DIR w) ->
  load_already (PROCESSED_LOG w) = OK pre ->
  main w = OK w' ->
  ledger_well_formed (PROCESSED_LOG w') /\
  load_already (PROCESSED_LOG w')
    = OK (pre ∪ list_to_set (List.map fst (add_files_of pre (ADD_DIR w)))) /\
  main w' = OK w'.
Proof.
  intros Hw Hn La Hm.
  pose proof (run_extends_ledger w w' pre Hw Hn La Hm) as L.
  assert (Hnames : Forall plain_name (List.map fst (add_files_of pre (ADD_DIR w)))).
  { apply List.Forall_forall. intros n Hin. apply in_map_iff in Hin.
    destruct Hin as (p & <- & Hp). apply in_add_files_of in Hp.
    destruct Hp as [Hp _].
    exact (proj1 (List.Forall_forall _ _) Hn p Hp). }
  assert (D : ADD_DIR w' = ADD_DIR w /\ ledger_well_formed (PROCESSED_LOG w')).
  { destruct (main_OK _ _ _ La Hm) as [[E ->]|[N (master & dfs & _ & _ & ->)]];
      [auto|].
    split; [reflexivity|]. cbn [PROCESSED_LOG].
    exact (proj1 (record_processed_adds_names _ _ _ Hw Hnames La)). }
  destruct D as [D W]. split; [exact W|]. split; [exact L|].
  unfold main. rewrite L. cbn [bind]. rewrite D.
  rewrite add_files_of_nil; [reflexivity|].
  intros p Hp. rewrite elem_of_union.
  destruct (decide (p.1 ∈ pre)) as [Hin|Hnin]; [now left|].
  right. rewrite elem_of_list_to_set. apply list_elem_of_In, in_map.
  now apply in_add_files_of.
Qed.


End MainMore.

(** ** Runs on the reference instance *)


Lemma main_without_new_files_does_nothing_witness :
  @main reference_runtime world_all_processed = OK world_all_processed.
Proof.
  eapply (@main_without_new_files_does_nothing reference_runtime
            world_all_processed).
  - reflexivity.
  - intros p Hp. rewrite elem_of_list_to_set. apply list_elem_of_In.
    destruct Hp as [<-|[<-|[]]]; vm_compute; tauto.
Defined.

Lemma main_ingests_exactly_once_witness :
  exists w',
    @main reference_runtime world_first_run = OK w' /\
    ledger_well_formed (PROCESSED_LOG w') /\
    load_already (PROCESSED_LOG w')
      = OK (∅ ∪ list_to_set
                  (List.map fst (add_files_of ∅ (ADD_DIR world_first_run)))) /\
    @main reference_runtime w' = OK w'.
Proof.
  eexists. split; [reflexivity|].
  apply (@main_ingests_exactly_once reference_runtime world_first_run _ ∅).
  - exact I.
  - destruct plain_name_csv as [Hb Hc]. repeat constructor; assumption.
  - reflexivity.
  - reflexivity.
Defined.

(** A new source and no master table: the run fails. *)
Example main_fails_without_master :
  @main reference_runtime world_without_master = Raise OSError.
Proof. reflexivity. Qed.

(** ** Merging in batches *)

Lemma unbeaten_app u v s : unbeaten (u ++ v) s = unbeaten u s && unbeaten v s.
Proof. apply forallb_app. Qed.

(** A row beaten by an input row is beaten by a row of the result. *)
Lemma unbeaten_merged l t :
  unbeaten (drop_duplicates (sort_values l)) t = unbeaten l t.
Proof.
  unfold unbeaten. apply eq_true_iff_eq. rewrite !forallb_forall. split.
  - intros F x Hx. destruct (beaten_by x t) eqn:B; [|reflexivity].
    unfold beaten_by in B. apply andb_prop in B. destruct B as [K B].
    destruct (merged_survivor l x Hx) as (s & Fs & Hs & Ks & Hmin).
    assert (Sm : In s (drop_duplicates (sort_values l))).
    { assert (H : In s [s]) by now left.
      rewrite <- Fs in H. now apply filter_In in H. }
    specialize (F s Sm). unfold beaten_by in F.
    assert (same_key t s = true) as Kts.
    { apply same_key_true. apply same_key_true in K, Ks. congruence. }
    assert (row_before s t = true) as Bst.
    { destruct (row_before s t) eqn:E; [reflexivity|].
      pose proof (Hmin x Hx (same_key_refl x)) as Hxs.
      now rewrite (not_before_trans _ _ _ Hxs E) in B. }
    now rewrite Kts, Bst in F.
  - intros F x Hx. apply F. now apply in_merged_in_inputs.
Qed.

(** Keys seen before the scan are keys filtered out after it. *)
Lemma drop_duplicates_from_seen_set (K seen : gset (option Z * option str)) l :
  drop_duplicates_from (K ∪ seen) l =
  List.filter (fun s => negb (bool_decide (dedup_key s ∈ K)))
    (drop_duplicates_from seen l).
Proof.
  revert seen. induction l as [|r l IH]; intros seen; simpl; [reflexivity|].
  destruct (decide (dedup_key r ∈ seen)) as [Hs|Hs].
  - rewrite (bool_decide_eq_true_2 (dedup_key r ∈ K ∪ seen))
      by (rewrite elem_of_union; tauto).
    rewrite (bool_decide_eq_true_2 _ Hs). apply IH.
  - rewrite (bool_decide_eq_false_2 _ Hs). simpl.
    destruct (decide (dedup_key r ∈ K)) as [Hk|Hk].
    + rewrite (bool_decide_eq_true_2 (dedup_key r ∈ K ∪ seen))
        by (rewrite elem_of_union; tauto).
      rewrite (bool_decide_eq_true_2 _ Hk). simpl. rewrite <- IH.
      f_equal. apply set_eq. intros x.
      rewrite !elem_of_union, elem_of_singleton.
      split; [tauto|]. intros [H|[->|H]]; tauto.
    + rewrite (bool_decide_eq_false_2 (dedup_key r ∈ K ∪ seen))
        by (rewrite elem_of_union; tauto).
      rewrite (bool_decide_eq_false_2 _ Hk). simpl. rewrite <- IH.
      do 2 f_equal. apply set_eq. intros x. rewrite !elem_of_union. tauto.
Qed.

Lemma row_before_tie a b y :
  keys_tie a b = true -> row_before y a = row_before y b.
Proof.
  unfold keys_tie. rewrite andb_true_iff, !negb_true_iff. intros [H1 H2].
  destruct (row_before y a) eqn:Ea, (row_before y b) eqn:Eb; try reflexivity.
  - now rewrite (not_before_trans _ _ _ Eb H2) in Ea.
  - now rewrite (not_before_trans _ _ _ Ea H1) in Eb.
Qed.

(** Two rows with the same key and the same sort keys are beaten by the
    same rows. *)
Lemma unbeaten_tie l a b :
  same_key a b = true -> keys_tie a b = true -> unbeaten l a = unbeaten l b.
Proof.
  intros K T.
  assert (E : forall y, beaten_by y a = beaten_by y b).
  { intros y. unfold beaten_by. rewrite (row_before_tie a b y T).
    unfold same_key. apply same_key_true in K. now rewrite K. }
  unfold unbeaten. apply eq_true_iff_eq. rewrite !forallb_forall.
  split; intros F y Hy; [rewrite <- E | rewrite E]; auto.
Qed.

(** X17. Merging in batches gives the table that merging at once gives:
    a table merged with one batch of rows and then with a second batch is,
    row for row, the table merged with both batches together. *)
Theorem merged_in_batches (existing batch1 batch2 : list Row) :
  merged (merged existing batch1) batch2 = merged existing (batch1 ++ batch2).
Proof.
  set (l := existing ++ batch1).
  assert (Em : merged existing batch1 = drop_duplicates (sort_values l))
    by reflexivity.
  apply sorted_tables_equal; [apply merged_sorted | apply merged_sorted |].
  intros r. unfold merged at 1 3, concat2. rewrite app_assoc. fold l.
  rewrite !filter_tie_merged, !List.filter_app.
  set (Fl := List.filter (keys_tie r) l).
  set (Fc := List.filter (keys_tie r) batch2).
  set (M := List.filter (keys_tie r) (merged existing batch1)).
  assert (EM : M = List.filter (unbeaten l) (drop_duplicates Fl)).
  { unfold M. rewrite Em. apply filter_tie_merged. }
  rewrite (filter_ext (unbeaten (merged existing batch1 ++ batch2))
             (unbeaten (l ++ batch2))).
  2:{ intros s. rewrite !unbeaten_app, Em. now rewrite unbeaten_merged. }
  unfold drop_duplicates. rewrite !drop_duplicates_from_app.
  rewrite (drop_duplicates_from_id ∅ M);
    [| apply NoDup_map_filter, merged_keys_NoDup
     | intros x _; apply not_elem_of_empty].
  rewrite !List.filter_app. f_equal.
  - rewrite EM, filter_filter_andb. apply filter_ext. intros s.
    rewrite unbeaten_app. now destruct (unbeaten l s).
  - assert (EK : (list_to_set (List.map dedup_key Fl) ∪ ∅
                   : gset (option Z * option str)) =
                 list_to_set (List.map dedup_key Fl)
                 ∪ (list_to_set (List.map dedup_key M) ∪ ∅)).
    { apply set_eq. intros k.
      rewrite !elem_of_union, !elem_of_list_to_set, !list_elem_of_In.
      split; [tauto|]. intros [H|[H|H]]; [tauto| |tauto].
      left. rewrite EM in H. apply in_map_iff in H.
      destruct H as (s & <- & Hs). apply filter_In in Hs. destruct Hs as [Hs _].
      apply in_drop_duplicates_from in Hs. now apply in_map. }
    rewrite EK.
    rewrite (drop_duplicates_from_seen_set
               (list_to_set (List.map dedup_key Fl))
               (list_to_set (List.map dedup_key M) ∪ ∅) Fc).
    rewrite filter_filter_andb.
    apply filter_ext_in. intros t Ht.
    destruct (unbeaten (l ++ batch2) t) eqn:U;
      [rewrite andb_true_r | now rewrite andb_false_r].
    symmetry. apply negb_true_iff, bool_decide_eq_false_2. intros Hk.
    apply in_drop_duplicates_from in Ht. destruct Ht as [Ht Kt].
    apply filter_In in Ht. destruct Ht as [_ Tt].
    apply Kt. rewrite elem_of_union. left.
    rewrite elem_of_list_to_set in Hk |- *.
    apply list_elem_of_In in Hk. apply list_elem_of_In.
    assert (Hd : In (dedup_key t) (List.map dedup_key (drop_duplicates Fl))).
    { apply drop_duplicates_from_keys. split; [exact Hk | apply not_elem_of_empty]. }
    apply in_map_iff in Hd. destruct Hd as (x & Kx & Hx).
    apply in_map_iff. exists x. split; [exact Kx|].
    rewrite EM. apply filter_In. split; [exact Hx|].
    apply in_drop_duplicates_from in Hx. destruct Hx as [Hx _].
    apply filter_In in Hx. destruct Hx as [_ Tx].
    rewrite unbeaten_app in U. apply andb_prop in U. destruct U as [U _].
    rewrite <- U. apply unbeaten_tie.
    + now apply same_key_true.
    + rewrite keys_tie_sym in Tx. exact (keys_tie_trans _ _ _ Tx Tt).
Qed.
